(** * datasaur-searchable: primary-key search over a row store

    A shallow embedding of [src/index.js] (the [DataSourceSearchable] data
    source): the key resolver [derivePK], the ordered index [derivePX] with
    its [comparator], the three binary searches, the search engine [find] and
    the public operations [findRow], [findRowIndex], [insertRow] and
    [deleteRow].

    Conventions of the embedding.
    - Scalars held in rows are integers; a column that a row lacks reads as
      [undefined], written [None].  Every JavaScript comparison with
      [undefined] is false.
    - A row is an association list, because [Object.keys] enumerates columns
      in insertion order and that order decides [derivePK].
    - Positions, bounds and index entries are [Z]: [max] starts at
      [getRowCount() - 1] and [mid - 1] may reach [-1].
    - [this.PK], [this.PX], the row store and the record of published
      requests form the instance [State]; methods are computations in a
      state-and-exception monad [M], an exception leaving the state as it was
      when raised.
    - [Array.prototype.sort] is a stable insertion sort ([array_sort]); with a
      consistent comparator ECMAScript fixes the result of a stable sort. *)

From Stdlib Require Import String.
From Stdlib Require Import ZArith List Bool Lia Permutation Sorted.
Import ListNotations.

Local Open Scope string_scope.
Local Open Scope Z_scope.
Local Open Scope list_scope.

(** ** Values, rows and search arguments *)

(** A scalar or [undefined]. *)
Definition value := option Z.

Module JS.

Definition value_eq_dec (p q : value) : {p = q} + {p <> q}.
Proof. decide equality. apply Z.eq_dec. Defined.

(** [p < q], [p > q] and [p >= q] of JavaScript on integers and
    [undefined]. *)
Definition lt (p q : value) : bool :=
  match p, q with Some a, Some b => a <? b | _, _ => false end.

Definition gt (p q : value) : bool :=
  match p, q with Some a, Some b => b <? a | _, _ => false end.

Definition ge (p q : value) : bool :=
  match p, q with Some a, Some b => b <=? a | _, _ => false end.

(** [l[i]] for an integer [i]. *)
Definition index {A} (l : list A) (i : Z) : option A :=
  if i <? 0 then None else nth_error l (Z.to_nat i).

(** The start position [Array.prototype.splice] computes from its first
    argument. *)
Definition splice_start (len start : Z) : Z :=
  if start <? 0 then Z.max (len + start) 0 else Z.min start len.

(** [l.splice(start, 0, item)]. *)
Definition splice_insert {A} (l : list A) (start : Z) (item : A) : list A :=
  let s := Z.to_nat (splice_start (Z.of_nat (length l)) start) in
  firstn s l ++ item :: skipn s l.

(** [l.splice(start, 1)]. *)
Definition splice_delete {A} (l : list A) (start : Z) : list A :=
  let s := Z.to_nat (splice_start (Z.of_nat (length l)) start) in
  firstn s l ++ skipn (S s) l.

End JS.

Definition Row := list (string * Z).

(** [dataRow[key]]. *)
Fixpoint lookup (dataRow : Row) (key : string) : value :=
  match dataRow with
  | [] => None
  | (k, v) :: rest => if String.eqb k key then Some v else lookup rest key
  end.

(** [key in dataRow] for a column name: [dataRow] has the column.  The
    names of [Object_prototype] below are set apart, [key in dataRow] holds
    for them whatever the columns are. *)
Definition has_key (dataRow : Row) (key : string) : bool :=
  match lookup dataRow key with Some _ => true | None => false end.



(** [Object.keys(dataRow)]. *)
Definition keys (dataRow : Row) : list string := map fst dataRow.

(** A search argument: [typeof sarg === 'object'] or a primitive. *)
Inductive Sarg :=
| SObj (o : Row)
| SVal (v : value).

Record Options := { presorted : bool; reindex : bool }.

Definition no_options : Options := {| presorted := false; reindex := false |}.

(** ** Errors *)

(** The exceptions of [src/index.js], one constructor per [throw], and the
    [TypeError] of reading a property of [undefined]. *)
Inductive Error :=
| RowExists                       (* 'Row exists.' *)
| MissingKeyColumn (key : string) (* 'Expected primary key column ...' *)
| ExpectedObject                  (* 'Expected search arg to be an object' *)
| NotFullyQualified               (* 'Expected fully qualified search arg.' *)
| CannotDerivePK                  (* 'Cannot derive primary key. ...' *)
| TypeError.

Inductive result (A : Type) :=
| OK (a : A)
| Err (e : Error).
Arguments OK {A} a.
Arguments Err {A} e.

Definition rbind {A B} (r : result A) (k : A -> result B) : result B :=
  match r with OK a => k a | Err e => Err e end.

Declare Scope result_scope.
Delimit Scope result_scope with result.
Notation "x <- r ;; k" := (rbind r (fun x => k))
  (at level 61, r at next level, right associativity) : result_scope.

(** ** Array.prototype.sort *)

Section ArraySort.
Context {A : Type}.
Variable compareFn : A -> A -> result Z.

Local Open Scope result_scope.

(** [x] goes before the first element it does not compare greater than. *)
Fixpoint sort_insert (x : A) (l : list A) : result (list A) :=
  match l with
  | [] => OK [x]
  | y :: l' =>
      c <- compareFn x y ;;
      if c <=? 0 then OK (x :: y :: l')
      else (r <- sort_insert x l' ;; OK (y :: r))
  end.

Fixpoint array_sort (l : list A) : result (list A) :=
  match l with
  | [] => OK []
  | x :: l' => s <- array_sort l' ;; sort_insert x s
  end.
End ArraySort.

(** ** The three binary searches *)

(** [getRow(mid)[key]]: reading a column of [undefined] raises. *)
Definition field (dataRow : option Row) (key : string) : result value :=
  match dataRow with
  | Some r => OK (lookup r key)
  | None => Err TypeError
  end.

(** What [find] returns: [{PX_index, dataRow}] or [{PX_index}]. *)
Record Found := { PX_index : Z; dataRow : option Row }.

Section BinarySearch.
Variable getRow : Z -> option Row.
Variable key : string.
Variable v : value.

Local Open Scope result_scope.

(** One [while (min <= max)] loop each; [n] bounds the iterations left and
    the wrappers below start it at the size of the range, which the loops
    never exceed (lemmas [binSearch_loop_fuel] and the like). *)
Fixpoint binSearch_loop (n : nat) (min max : Z) : result Found :=
  if min <=? max then
    match n with
    | O => OK {| PX_index := min; dataRow := None |}
    | S n' =>
        let mid := (min + max) / 2 in
        let dataRow := getRow mid in
        fld <- field dataRow key ;;
        if JS.gt fld v then binSearch_loop n' min (mid - 1)
        else if JS.lt fld v then binSearch_loop n' (mid + 1) max
        else OK {| PX_index := mid; dataRow := dataRow |}
    end
  else OK {| PX_index := min; dataRow := None |}.

Fixpoint binSearchMin_loop (n : nat) (min max : Z) : result Z :=
  if min <=? max then
    match n with
    | O => OK min
    | S n' =>
        let mid := (min + max) / 2 in
        fld <- field (getRow mid) key ;;
        if JS.ge fld v then binSearchMin_loop n' min (mid - 1)
        else binSearchMin_loop n' (mid + 1) max
    end
  else OK min.

Fixpoint binSearchMax_loop (n : nat) (min max : Z) : result Z :=
  if min <=? max then
    match n with
    | O => OK min
    | S n' =>
        let mid := (min + max) / 2 in
        fld <- field (getRow mid) key ;;
        if JS.gt fld v then binSearchMax_loop n' min (mid - 1)
        else binSearchMax_loop n' (mid + 1) max
    end
  else OK min.

Definition range_size (min max : Z) : nat := Z.to_nat (max - min + 1).

Definition binSearch (min max : Z) : result Found :=
  binSearch_loop (range_size min max) min max.

Definition binSearchMin (min max : Z) : result Z :=
  binSearchMin_loop (range_size min max) min max.

Definition binSearchMax (min max : Z) : result Z :=
  binSearchMax_loop (range_size min max) min max.
End BinarySearch.

(** ** The instance *)

(** A request published to the data sources behind the instance. *)
Inductive Request :=
| AddRow (dataRow : Row)      (* publish('add-row', dataRow) *)
| DelRow (y : option Z).      (* publish('del-row', y) *)

(** [PK] and [PX] are [this.PK] and [this.PX] ([None] when unset, deleted or
    otherwise falsy).  [data] is the row store read by [getRow] and
    [getRowCount]; [local] tells whether the instance itself holds it
    (['data' in this]).  [handlesAdd] and [handlesDel] tell whether a data
    source answers the two requests and [published] records the requests
    made, oldest first. *)
Record State := {
  PK : option (list string);
  PX : option (list Z);
  data : list Row;
  local : bool;
  handlesAdd : bool;
  handlesDel : bool;
  published : list Request
}.

Definition setPK (v : option (list string)) (st : State) : State :=
  {| PK := v; PX := PX st; data := data st; local := local st;
     handlesAdd := handlesAdd st; handlesDel := handlesDel st;
     published := published st |}.

Definition setPX (v : option (list Z)) (st : State) : State :=
  {| PK := PK st; PX := v; data := data st; local := local st;
     handlesAdd := handlesAdd st; handlesDel := handlesDel st;
     published := published st |}.

Definition setData (v : list Row) (st : State) : State :=
  {| PK := PK st; PX := PX st; data := v; local := local st;
     handlesAdd := handlesAdd st; handlesDel := handlesDel st;
     published := published st |}.

Definition record (req : Request) (st : State) : State :=
  {| PK := PK st; PX := PX st; data := data st; local := local st;
     handlesAdd := handlesAdd st; handlesDel := handlesDel st;
     published := published st ++ [req] |}.

(** [this.getRowCount()] and [this.getRow(y)]. *)
Definition getRowCount (st : State) : Z := Z.of_nat (length (data st)).

Definition getRow (st : State) (y : Z) : option Row := JS.index (data st) y.

(** [getIndexedRow]: [this.getRow(this.PX[i])]; [getRow(undefined)] is
    [undefined].  [find] binds it only while [this.PX] is set. *)
Definition getIndexedRow (st : State) (indexedRowIndex : Z) : option Row :=
  match PX st with
  | Some px =>
      match JS.index px indexedRowIndex with
      | Some y => getRow st y
      | None => None
      end
  | None => None
  end.

(** [getID]: the primary-key tuple of the row at [rowIndex];
    [this.PK.map] reads a column of the row once per key column. *)
Fixpoint fields (dataRow : option Row) (pk : list string)
  : result (list value) :=
  match pk with
  | [] => OK []
  | key :: rest =>
      match dataRow with
      | Some r =>
          rbind (fields dataRow rest) (fun vs => OK (lookup r key :: vs))
      | None => Err TypeError
      end
  end.

Definition getID (st : State) (rowIndex : Z) : result (list value) :=
  match PK st with
  | Some pk => fields (getRow st rowIndex) pk
  | None => Err TypeError
  end.

(** ** The state-and-exception monad of the methods *)

Definition M (A : Type) : Type := State -> State * result A.

Definition ret {A} (a : A) : M A := fun st => (st, OK a).

Definition throw {A} (e : Error) : M A := fun st => (st, Err e).

Definition bind {A B} (m : M A) (k : A -> M B) : M B :=
  fun st =>
    match m st with
    | (st', OK a) => k a st'
    | (st', Err e) => (st', Err e)
    end.

Definition get : M State := fun st => (st, OK st).

Definition modify (f : State -> State) : M unit := fun st => (f st, OK tt).

(** A computation that only reads the instance. *)
Definition reading {A} (f : State -> result A) : M A := fun st => (st, f st).

Declare Scope M_scope.
Delimit Scope M_scope with M.
Notation "x <- m ;; k" := (bind m (fun x => k))
  (at level 61, m at next level, right associativity) : M_scope.
Notation "m ;; k" := (bind m (fun _ => k))
  (at level 61, right associativity) : M_scope.

(** ** Request delegation *)

(** Modelled from the spec: the row store and the publish/subscribe layer are
    outside [src/] (they belong to the base data source).  Per sections 4.4
    and 6 of the specification, a handled 'add-row' appends the row in the
    last physical slot, a handled 'del-row' removes the row at the given
    physical position, and the response is empty exactly when no data source
    handled the request. *)
Definition store_delete (rows : list Row) (y : option Z) : list Row :=
  match y with
  | Some y =>
      if (0 <=? y) && (y <? Z.of_nat (length rows))
      then firstn (Z.to_nat y) rows ++ skipn (S (Z.to_nat y)) rows
      else rows
  | None => rows
  end.

Definition publish (req : Request) : M (list unit) :=
  fun st =>
    let st := record req st in
    match req with
    | AddRow dataRow =>
        if handlesAdd st then (setData (data st ++ [dataRow]) st, OK [tt])
        else (st, OK [])
    | DelRow y =>
        if handlesDel st then (setData (store_delete (data st) y) st, OK [tt])
        else (st, OK [])
    end.

(** ** Key resolver *)

(** The [{key, uniqueValues}] records [derivePK] sorts. *)
Record Candidate := { key : string; uniqueValues : Z }.

(** [Object.keys(s).length] after [s[dataRow[key]] = true] for every row: the
    number of distinct values of the column, [undefined] counting as one. *)
Definition histogram (rows : list Row) (key : string) : list value :=
  nodup JS.value_eq_dec (map (fun dataRow => lookup dataRow key) rows).

Definition candidate (st : State) (key : string) : Candidate :=
  {| key := key;
     uniqueValues :=
       if local st then Z.of_nat (length (histogram (data st) key)) else 0 |}.

Definition derivePK (st : State) (sarg : Sarg) : result (list string) :=
  let derive :=
    match sarg with
    | SVal _ => Err CannotDerivePK
    | SObj o =>
        rbind
          (array_sort
             (fun a b => OK (uniqueValues b - uniqueValues a))
             (map (candidate st) (keys o)))
          (fun sorted => OK (map key sorted))
    end in
  match PK st with
  | Some (c :: pk) => OK (c :: pk)
  | _ => derive
  end.

(** ** Ordered index *)

(** [comparator]: [this.PK.find] stops at the first column whose comparison
    is not [0]; [result] keeps the last comparison made and stays
    [undefined], which [sort] reads as [0], when [PK] is empty. *)
Fixpoint comparator_find (a b : option Row) (pk : list string) : result Z :=
  match pk with
  | [] => OK 0
  | key :: rest =>
      rbind (field a key) (fun p =>
      rbind (field b key) (fun q =>
        let result := if JS.lt p q then -1 else if JS.gt p q then 1 else 0 in
        if result =? 0 then comparator_find a b rest else OK result))
  end.

Definition comparator (st : State) (a b : Z) : result Z :=
  match PK st with
  | Some pk => comparator_find (getRow st a) (getRow st b) pk
  | None => Err TypeError
  end.

(** [Array(n)] filled by [PX[i] = i]. *)
Definition identity (n : nat) : list Z := map Z.of_nat (seq 0 n).

(** The rebuild of [derivePX]: the identity permutation sorted by
    [comparator]. *)
Definition rebuildPX (st : State) : result (list Z) :=
  array_sort (comparator st) (identity (length (data st))).

Definition derivePX (st : State) : result (list Z) :=
  match PX st with
  | Some (y :: px) => OK (y :: px)
  | _ => rebuildPX st
  end.

(** ** Search engine *)

(** [PK.map] over an object search argument: the first key column the
    argument lacks raises. *)
Fixpoint sarg_values (o : Row) (pk : list string) : result (list value) :=
  match pk with
  | [] => OK []
  | key :: rest =>
      if has_key o key
      then rbind (sarg_values o rest) (fun vs => OK (lookup o key :: vs))
      else Err (MissingKeyColumn key)
  end.

(** The search argument as a tuple of values aligned with [PK]. *)
Definition normalize (pk : list string) (sarg : Sarg) : result (list value) :=
  match sarg with
  | SObj o => sarg_values o pk
  | SVal v => if (length pk =? 1)%nat then OK [v] else Err ExpectedObject
  end.

(** The [forEach] over [PK.slice(0, maxKey)]: [i] is the position of [key]
    in [PK] and [sarg[i]] its search value. *)
Fixpoint narrow (getRow : Z -> option Row) (sarg : list value)
    (columns : list string) (i : nat) (min max : Z) : result (Z * Z) :=
  match columns with
  | [] => OK (min, max)
  | key :: rest =>
      rbind (binSearchMin getRow key (nth i sarg None) min max) (fun min =>
      rbind (binSearchMax getRow key (nth i sarg None) min max) (fun m =>
        narrow getRow sarg rest (S i) min (m - 1)))
  end.

(** The row accessor [find] searches through. *)
Definition accessor (st : State) : Z -> option Row :=
  match PX st with
  | Some _ => getIndexedRow st
  | None => getRow st
  end.

(** The tail of [find], from [var min = 0] on.  [maxKey] is [PK.length - 1];
    for an empty [PK] the slice is empty and [PK[-1]] and [sarg[-1]] are
    [undefined], the former read as the property name "undefined". *)
Definition search (st : State) (pk : list string) (sarg : list value)
  : result Found :=
  let min := 0 in
  let max := getRowCount st - 1 in
  let maxKey := (length pk - 1)%nat in
  let getRow := accessor st in
  rbind (narrow getRow sarg (firstn maxKey pk) 0 min max) (fun '(min, max) =>
    binSearch getRow (nth maxKey pk "undefined") (nth maxKey sarg None)
      min max).

Local Open Scope M_scope.

Definition find (sarg : Sarg) (options : Options) : M Found :=
  pk <- reading (fun st => derivePK st sarg) ;;
  modify (setPK (Some pk)) ;;
  (if presorted options then modify (setPX None)
   else
     (if reindex options then modify (setPX None) else ret tt) ;;
     px <- reading derivePX ;;
     modify (setPX (Some px))) ;;
  sarg <- reading (fun _ => normalize pk sarg) ;;
  (if (length sarg =? length pk)%nat then ret tt
   else throw NotFullyQualified) ;;
  reading (fun st => search st pk sarg).

(** ** Public operations *)

(** [findRow()] without arguments deletes [this.PX]. *)
Definition findRow (arguments : option (Sarg * Options)) : M (option Row) :=
  match arguments with
  | None => modify (setPX None) ;; ret None
  | Some (sarg, options) => row <- find sarg options ;; ret (dataRow row)
  end.

Definition findRowIndex (sarg : Sarg) (options : Options) : M (option Z) :=
  row <- find sarg options ;;
  st <- get ;;
  match PX st with
  | Some px => ret (JS.index px (PX_index row))
  | None => ret (Some (PX_index row))
  end.

Definition insertRow (dataRow_ : Row) (options : Options) : M bool :=
  row <- find (SObj dataRow_) options ;;
  match dataRow row with
  | Some _ => throw RowExists
  | None =>
      response <- publish (AddRow dataRow_) ;;
      let handled := negb (length response =? 0)%nat in
      st <- get ;;
      match handled, PX st with
      | true, Some px =>
          modify (setPX (Some (JS.splice_insert px (PX_index row)
                                 (getRowCount st - 1)))) ;;
          ret handled
      | _, _ => ret handled
      end
  end.

(** What [deleteRow] returns: the deleted row, [undefined] or [false]. *)
Inductive Deleted :=
| DeletedRow (dataRow : Row)
| NotFound
| NotHandled.

Definition deleteRow (sarg : Sarg) (options : Options) : M Deleted :=
  row <- find sarg options ;;
  match dataRow row with
  | None => ret NotFound
  | Some result =>
      st <- get ;;
      match PX st with
      | None => throw TypeError  (* this.PX[...] with this.PX deleted *)
      | Some px =>
          response <- publish (DelRow (JS.index px (PX_index row))) ;;
          let handled := negb (length response =? 0)%nat in
          if negb handled then ret NotHandled
          else
            modify (setPX (Some (JS.splice_delete px (PX_index row)))) ;;
            ret (DeletedRow result)
      end
  end.

Local Close Scope M_scope.

(** ** Scenarios *)

Module Scenario.
(** Rows [{id:3,name:"c"}, {id:1,name:"a"}, {id:2,name:"b"}] with the
    letters written as their character codes, and [PK = ["id"]]. *)
Definition rows : list Row :=
  [ [("id", 3); ("name", 99)]; [("id", 1); ("name", 97)];
    [("id", 2); ("name", 98)] ].

Definition fresh (pk : option (list string)) (rows : list Row) : State :=
  {| PK := pk; PX := None; data := rows; local := true;
     handlesAdd := true; handlesDel := true; published := [] |}.

Definition byId : State := fresh (Some ["id"]) rows.
End Scenario.

(** ** Vocabulary of the properties *)

Section ColumnSpec.
Variable getRow : Z -> option Row.
Variable key : string.
Variable t : Z.

(** Every position of the range holds a row with a value in the column. *)
Definition defined_on (min max : Z) : Prop :=
  forall i, min <= i <= max ->
    exists r z, getRow i = Some r /\ lookup r key = Some z.

(** The column is ascending over the range. *)
Definition ascending_on (min max : Z) : Prop :=
  forall i j ri rj zi zj,
    min <= i -> i <= j -> j <= max ->
    getRow i = Some ri -> getRow j = Some rj ->
    lookup ri key = Some zi -> lookup rj key = Some zj -> zi <= zj.

(** The exact search: a hit holds the target, a miss splits the range. *)
Definition binSearch_post (min max : Z) (res : Found) : Prop :=
  match dataRow res with
  | Some r =>
      min <= PX_index res <= max /\
      getRow (PX_index res) = Some r /\ lookup r key = Some t
  | None =>
      min <= PX_index res <= max + 1 /\
      (forall i r z, min <= i < PX_index res -> getRow i = Some r ->
                     lookup r key = Some z -> z < t) /\
      (forall i r z, PX_index res <= i <= max -> getRow i = Some r ->
                     lookup r key = Some z -> t < z)
  end.

End ColumnSpec.

(** The primary-key tuple of a row, as [getID] maps it. *)
Definition tuple (pk : list string) (r : Row) : list value :=
  map (lookup r) pk.

(** Lexicographic order over the key columns with the per-column [<] and [>]
    of JavaScript: the first column where one side is less or greater
    decides. *)
Fixpoint lex_lt (a b : list value) : bool :=
  match a, b with
  | x :: a', y :: b' => JS.lt x y || (negb (JS.gt x y) && lex_lt a' b')
  | _, _ => false
  end.

Fixpoint lex_le (a b : list value) : bool :=
  match a, b with
  | x :: a', y :: b' => JS.lt x y || (negb (JS.gt x y) && lex_le a' b')
  | _, _ => true
  end.

(** The row holds a value in every key column. *)
Definition complete (pk : list string) (r : Row) : bool :=
  forallb (has_key r) pk.

Section ChainSpec.
Variable getRow : Z -> option Row.

(** [find] from its narrowing loop on, started at column [i] of the search
    tuple on the range [min..max]. *)
Definition search_from (sarg : list value) (columns : list string)
    (i : nat) (min max : Z) : result Found :=
  let maxKey := (length columns - 1)%nat in
  rbind (narrow getRow sarg (firstn maxKey columns) i min max)
    (fun '(min, max) =>
       binSearch getRow (nth maxKey columns "undefined")
         (nth (i + maxKey) sarg None) min max).

(** Every position of the range holds a row with all the key columns. *)
Definition complete_on (ks : list string) (min max : Z) : Prop :=
  forall i, min <= i <= max ->
    exists r, getRow i = Some r /\ complete ks r = true.

(** The rows of the range ascend in the order of their key tuples. *)
Definition sorted_on (ks : list string) (min max : Z) : Prop :=
  forall i j ri rj,
    min <= i -> i <= j -> j <= max ->
    getRow i = Some ri -> getRow j = Some rj ->
    lex_le (tuple ks ri) (tuple ks rj) = true.

(** A hit holds the searched tuple; a miss is the insertion point: smaller
    tuples before it, greater ones from it on. *)
Definition search_post (ks : list string) (vs : list Z) (min max : Z)
    (res : Found) : Prop :=
  match dataRow res with
  | Some r =>
      min <= PX_index res <= max /\
      getRow (PX_index res) = Some r /\ tuple ks r = map Some vs
  | None =>
      min <= PX_index res <= max + 1 /\
      (forall i r, min <= i < PX_index res -> getRow i = Some r ->
                   lex_lt (tuple ks r) (map Some vs) = true) /\
      (forall i r, PX_index res <= i <= max -> getRow i = Some r ->
                   lex_lt (map Some vs) (tuple ks r) = true)
  end.

End ChainSpec.

(** Row [a] does not come after row [b] in primary-key order. *)
Definition row_le (pk : list string) (a b : Row) : Prop :=
  lex_le (tuple pk a) (tuple pk b) = true.

(** [rs] are the rows the index entries [px] point to, in index order. *)
Definition views (rows : list Row) (px : list Z) (rs : list Row) : Prop :=
  Forall2 (fun y r => JS.index rows y = Some r) px rs.

(** The invariant of the ordered index: a permutation of the row positions
    whose rows ascend in primary-key order. *)
Definition valid_index (rows : list Row) (pk : list string) (px : list Z)
  : Prop :=
  Permutation px (identity (length rows)) /\
  exists rs, views rows px rs /\ StronglySorted (row_le pk) rs.

(** Every stored row holds a value in every key column. *)
Definition all_complete (pk : list string) (rows : list Row) : Prop :=
  Forall (fun r => complete pk r = true) rows.

(** The instance once [find] has resolved [PK] and the index. *)
Definition resolved (pk : list string) (px : option (list Z)) (st : State)
  : State :=
  setPX px (setPK (Some pk) st).

(** The state [derivePX] runs in: [PK] set, [PX] cleared on [reindex]. *)
Definition before_derivePX (pk : list string) (options : Options)
    (st : State) : State :=
  if reindex options then setPX None (setPK (Some pk) st)
  else setPK (Some pk) st.

(** The index [derivePX] hands to [find]: the cached one when it is not
    empty and no [reindex] is asked, a fresh rebuild otherwise. *)
Definition index_ok (pk : list string) (st : State) : Prop :=
  match PX st with
  | Some (y :: px) => valid_index (data st) pk (y :: px)
  | _ => True
  end.

(** [rs] is the row store as the active accessor presents it. *)
Definition seen_as (st : State) (rs : list Row) : Prop :=
  (forall i, accessor st i = JS.index rs i) /\ length rs = length (data st).

(** The instance after a handled 'add-row'. *)
Definition appended (r : Row) (st : State) : State :=
  setData (data st ++ [r]) (record (AddRow r) st).

(** The result is the 'Expected fully qualified search arg.' exception. *)
Definition is_incomplete {A} (r : result A) : bool :=
  match r with
  | Err NotFullyQualified => true
  | _ => false
  end.

(** No primary key is configured or cached: [this.PK && this.PK.length] is
    falsy. *)
Definition no_key (st : State) : bool :=
  match PK st with
  | Some (_ :: _) => false
  | _ => true
  end.

(** The selectivity score [derivePK] gives a column. *)
Definition selectivity (st : State) (k : string) : Z :=
  uniqueValues (candidate st k).

(** The rows ascend in primary-key order as the active accessor presents
    them: through a valid index, or directly in a presorted store. *)
Definition in_order (pk : list string) (st : State) : Prop :=
  match PX st with
  | Some px => valid_index (data st) pk px
  | None => StronglySorted (row_le pk) (data st)
  end.

Inductive Op :=
| OpFindRow (sarg : Sarg)
| OpFindRowIndex (sarg : Sarg)
| OpInsertRow (dataRow : Row)
| OpDeleteRow (sarg : Sarg).

(** The search argument the operation hands to [find]. *)
Definition op_sarg (op : Op) : Sarg :=
  match op with
  | OpFindRow sarg | OpFindRowIndex sarg | OpDeleteRow sarg => sarg
  | OpInsertRow r => SObj r
  end.

(** The instance after the operation, returned or raised. *)
Definition run_op (op : Op) (options : Options) (st : State) : State :=
  match op with
  | OpFindRow sarg => fst (findRow (Some (sarg, options)) st)
  | OpFindRowIndex sarg => fst (findRowIndex sarg options st)
  | OpInsertRow r => fst (insertRow r options st)
  | OpDeleteRow sarg => fst (deleteRow sarg options st)
  end.

(** The operation returned after its delegate handled a storage change. *)
Definition op_handled (op : Op) (options : Options) (st : State) : bool :=
  match op with
  | OpFindRow _ | OpFindRowIndex _ => false
  | OpInsertRow r =>
      match snd (insertRow r options st) with OK true => true | _ => false end
  | OpDeleteRow sarg =>
      match snd (deleteRow sarg options st) with
      | OK (DeletedRow _) => true
      | _ => false
      end
  end.



(** ** Example instances *)

Module Examples.
Definition presorted_on : Options := {| presorted := true; reindex := false |}.

Definition r1 : Row := [("id", 1)].
Definition r2 : Row := [("id", 2)].
Definition r3 : Row := [("id", 3)].

(** Rows with ids 1, 2, 3 in store order, keyed by "id", nothing cached. *)
Definition three : State := Scenario.fresh (Some ["id"]) [r1; r2; r3].

(** The same with the index cached. *)
Definition three_indexed : State := setPX (Some [0; 1; 2]) three.

(** The same with no data source answering 'add-row'. *)
Definition three_declining : State :=
  {| PK := Some ["id"]; PX := Some [0; 1; 2]; data := [r1; r2; r3];
     local := true; handlesAdd := false; handlesDel := false;
     published := [] |}.

(** The scenario rows with the index a first search built. *)
Definition byId_indexed : State := setPX (Some [1; 2; 0]) Scenario.byId.

(** Ids 2 and 1 in store order, no key configured. *)
Definition unkeyed : State := Scenario.fresh None [r2; r1].

(** A store presorted by ["dept"; "id"] with runs of equal "dept". *)
Definition staff : list Row :=
  [ [("dept", 1); ("id", 1)]; [("dept", 1); ("id", 2)];
    [("dept", 2); ("id", 1)]; [("dept", 2); ("id", 2)];
    [("dept", 2); ("id", 3)]; [("dept", 3); ("id", 1)] ].

Definition byDept : State := Scenario.fresh (Some ["dept"; "id"]) staff.

(** Ids 10, 30, 20, 40, 50, 60 in store order, keyed by "id". *)
Definition six : State :=
  Scenario.fresh (Some ["id"])
    [ [("id", 10)]; [("id", 30)]; [("id", 20)]; [("id", 40)]; [("id", 50)];
      [("id", 60)] ].
End Examples.

(** * Properties *)

(** ** The loops terminate within their range *)

Lemma mid_bounds (min max : Z) :
  min <= max -> min <= (min + max) / 2 <= max.
Proof.
  intros H.
  pose proof (Z.div_mod (min + max) 2 ltac:(lia)).
  pose proof (Z.mod_pos_bound (min + max) 2 ltac:(lia)).
  lia.
Qed.

Ltac fuel_step :=
  match goal with
  | H : (_ <=? _) = true |- _ => apply Z.leb_le in H
  | H : (_ <=? _) = false |- _ => apply Z.leb_gt in H
  end.

Section Fuel.
Variable getRow : Z -> option Row.
Variable key : string.
Variable v : value.

Lemma binSearch_loop_fuel (n m : nat) (min max : Z) :
  (range_size min max <= n)%nat -> (range_size min max <= m)%nat ->
  binSearch_loop getRow key v n min max =
  binSearch_loop getRow key v m min max.
Proof.
  revert m min max.
  induction n as [|n IH]; intros [|m] min max Hn Hm; simpl;
    destruct (min <=? max) eqn:E; try reflexivity; fuel_step;
    unfold range_size in *; try lia.
  pose proof (mid_bounds min max E).
  destruct (field (getRow ((min + max) / 2)) key) as [fld|e]; simpl; [|reflexivity].
  destruct (JS.gt fld v); [apply IH; lia|].
  destruct (JS.lt fld v); [apply IH; lia|reflexivity].
Qed.

Lemma binSearchMin_loop_fuel (n m : nat) (min max : Z) :
  (range_size min max <= n)%nat -> (range_size min max <= m)%nat ->
  binSearchMin_loop getRow key v n min max =
  binSearchMin_loop getRow key v m min max.
Proof.
  revert m min max.
  induction n as [|n IH]; intros [|m] min max Hn Hm; simpl;
    destruct (min <=? max) eqn:E; try reflexivity; fuel_step;
    unfold range_size in *; try lia.
  pose proof (mid_bounds min max E).
  destruct (field (getRow ((min + max) / 2)) key) as [fld|e]; simpl; [|reflexivity].
  destruct (JS.ge fld v); apply IH; lia.
Qed.

Lemma binSearchMax_loop_fuel (n m : nat) (min max : Z) :
  (range_size min max <= n)%nat -> (range_size min max <= m)%nat ->
  binSearchMax_loop getRow key v n min max =
  binSearchMax_loop getRow key v m min max.
Proof.
  revert m min max.
  induction n as [|n IH]; intros [|m] min max Hn Hm; simpl;
    destruct (min <=? max) eqn:E; try reflexivity; fuel_step;
    unfold range_size in *; try lia.
  pose proof (mid_bounds min max E).
  destruct (field (getRow ((min + max) / 2)) key) as [fld|e]; simpl; [|reflexivity].
  destruct (JS.gt fld v); apply IH; lia.
Qed.

(** The wrappers satisfy the equations of the [while] loops. *)
Lemma binSearch_eq (min max : Z) :
  binSearch getRow key v min max =
  if min <=? max then
    let mid := (min + max) / 2 in
    rbind (field (getRow mid) key) (fun fld =>
      if JS.gt fld v then binSearch getRow key v min (mid - 1)
      else if JS.lt fld v then binSearch getRow key v (mid + 1) max
      else OK {| PX_index := mid; dataRow := getRow mid |})
  else OK {| PX_index := min; dataRow := None |}.
Proof.
  unfold binSearch at 1.
  destruct (min <=? max) eqn:E.
  - fuel_step. pose proof (mid_bounds min max E).
    destruct (range_size min max) as [|n] eqn:R; [unfold range_size in R; lia|].
    simpl. apply Z.leb_le in E. rewrite E. cbv zeta.
    destruct (field (getRow ((min + max) / 2)) key) as [fld|e]; simpl; [|reflexivity].
    apply Z.leb_le in E. unfold range_size in R.
    destruct (JS.gt fld v);
      [apply binSearch_loop_fuel; unfold range_size; lia|].
    destruct (JS.lt fld v);
      [apply binSearch_loop_fuel; unfold range_size; lia|reflexivity].
  - destruct (range_size min max); simpl; rewrite E; reflexivity.
Qed.

Lemma binSearchMin_eq (min max : Z) :
  binSearchMin getRow key v min max =
  if min <=? max then
    let mid := (min + max) / 2 in
    rbind (field (getRow mid) key) (fun fld =>
      if JS.ge fld v then binSearchMin getRow key v min (mid - 1)
      else binSearchMin getRow key v (mid + 1) max)
  else OK min.
Proof.
  unfold binSearchMin at 1.
  destruct (min <=? max) eqn:E.
  - fuel_step. pose proof (mid_bounds min max E).
    destruct (range_size min max) as [|n] eqn:R; [unfold range_size in R; lia|].
    simpl. apply Z.leb_le in E. rewrite E. cbv zeta.
    destruct (field (getRow ((min + max) / 2)) key) as [fld|e]; simpl; [|reflexivity].
    apply Z.leb_le in E. unfold range_size in R.
    destruct (JS.ge fld v); apply binSearchMin_loop_fuel; unfold range_size; lia.
  - destruct (range_size min max); simpl; rewrite E; reflexivity.
Qed.

Lemma binSearchMax_eq (min max : Z) :
  binSearchMax getRow key v min max =
  if min <=? max then
    let mid := (min + max) / 2 in
    rbind (field (getRow mid) key) (fun fld =>
      if JS.gt fld v then binSearchMax getRow key v min (mid - 1)
      else binSearchMax getRow key v (mid + 1) max)
  else OK min.
Proof.
  unfold binSearchMax at 1.
  destruct (min <=? max) eqn:E.
  - fuel_step. pose proof (mid_bounds min max E).
    destruct (range_size min max) as [|n] eqn:R; [unfold range_size in R; lia|].
    simpl. apply Z.leb_le in E. rewrite E. cbv zeta.
    destruct (field (getRow ((min + max) / 2)) key) as [fld|e]; simpl; [|reflexivity].
    apply Z.leb_le in E. unfold range_size in R.
    destruct (JS.gt fld v); apply binSearchMax_loop_fuel; unfold range_size; lia.
  - destruct (range_size min max); simpl; rewrite E; reflexivity.
Qed.
End Fuel.

(** ** The searches on one ordered column *)

Lemma range_ind (P : Z -> Z -> Prop) :
  (forall min max,
      (forall min' max',
          (range_size min' max' < range_size min max)%nat -> P min' max') ->
      P min max) ->
  forall min max, P min max.
Proof.
  intros step min max.
  remember (range_size min max) as n eqn:En.
  revert min max En.
  induction n as [n IH] using lt_wf_ind.
  intros min max ->. apply step. intros min' max' Hlt.
  eapply IH; [exact Hlt|reflexivity].
Qed.

Section ColumnSearch.
Variable getRow : Z -> option Row.
Variable key : string.
Variable t : Z.

Lemma defined_on_sub (min max min' max' : Z) :
  defined_on getRow key min max -> min <= min' -> max' <= max ->
  defined_on getRow key min' max'.
Proof. intros D ? ? i Hi. apply D. lia. Qed.

Lemma ascending_on_sub (min max min' max' : Z) :
  ascending_on getRow key min max -> min <= min' -> max' <= max ->
  ascending_on getRow key min' max'.
Proof.
  intros As ? ? i j ri rj zi zj ? ? ?. apply As; lia.
Qed.

Lemma binSearchMin_spec : forall min max,
  min <= max + 1 ->
  defined_on getRow key min max -> ascending_on getRow key min max ->
  exists m,
    binSearchMin getRow key (Some t) min max = OK m /\
    min <= m <= max + 1 /\
    (forall i r z, min <= i < m -> getRow i = Some r ->
                   lookup r key = Some z -> z < t) /\
    (forall i r z, m <= i <= max -> getRow i = Some r ->
                   lookup r key = Some z -> t <= z).
Proof.
  intros min max; pattern min, max; apply range_ind; clear min max.
  intros min max IH Hr D As.
  rewrite binSearchMin_eq.
  destruct (min <=? max) eqn:E; fuel_step.
  - pose proof (mid_bounds min max E) as Hmid. cbv zeta.
    set (mid := (min + max) / 2) in *.
    destruct (D mid Hmid) as (rm & zm & Hrm & Hzm).
    rewrite Hrm. simpl. rewrite Hzm. simpl.
    destruct (t <=? zm) eqn:C; fuel_step.
    + destruct (IH min (mid - 1)) as (m & Hm & Hb & Hlo & Hhi);
        [unfold range_size; lia|lia| |
         eapply ascending_on_sub; [exact As|lia|lia]|].
      { eapply defined_on_sub; [exact D|lia|lia]. }
      exists m. repeat split; try lia; try assumption.
      intros i r z Hi Hri Hz.
      destruct (Z_le_gt_dec i (mid - 1)) as [L|G].
      * eapply Hhi; eauto. lia.
      * assert (zm <= z) by (eapply (As mid i); eauto; lia). lia.
    + destruct (IH (mid + 1) max) as (m & Hm & Hb & Hlo & Hhi);
        [unfold range_size; lia|lia| |
         eapply ascending_on_sub; [exact As|lia|lia]|].
      { eapply defined_on_sub; [exact D|lia|lia]. }
      exists m. repeat split; try lia; try assumption.
      intros i r z Hi Hri Hz.
      destruct (Z_le_gt_dec (mid + 1) i) as [L|G].
      * eapply Hlo; eauto. lia.
      * assert (z <= zm) by (eapply (As i mid); eauto; lia). lia.
  - exists min. repeat split; try lia; intros; lia.
Qed.

Lemma binSearchMax_spec : forall min max,
  min <= max + 1 ->
  defined_on getRow key min max -> ascending_on getRow key min max ->
  exists m,
    binSearchMax getRow key (Some t) min max = OK m /\
    min <= m <= max + 1 /\
    (forall i r z, min <= i < m -> getRow i = Some r ->
                   lookup r key = Some z -> z <= t) /\
    (forall i r z, m <= i <= max -> getRow i = Some r ->
                   lookup r key = Some z -> t < z).
Proof.
  intros min max; pattern min, max; apply range_ind; clear min max.
  intros min max IH Hr D As.
  rewrite binSearchMax_eq.
  destruct (min <=? max) eqn:E; fuel_step.
  - pose proof (mid_bounds min max E) as Hmid. cbv zeta.
    set (mid := (min + max) / 2) in *.
    destruct (D mid Hmid) as (rm & zm & Hrm & Hzm).
    rewrite Hrm. simpl. rewrite Hzm. simpl.
    destruct (t <? zm) eqn:C;
      [apply Z.ltb_lt in C|apply Z.ltb_ge in C].
    + destruct (IH min (mid - 1)) as (m & Hm & Hb & Hlo & Hhi);
        [unfold range_size; lia|lia| |
         eapply ascending_on_sub; [exact As|lia|lia]|].
      { eapply defined_on_sub; [exact D|lia|lia]. }
      exists m. repeat split; try lia; try assumption.
      intros i r z Hi Hri Hz.
      destruct (Z_le_gt_dec i (mid - 1)) as [L|G].
      * eapply Hhi; eauto. lia.
      * assert (zm <= z) by (eapply (As mid i); eauto; lia). lia.
    + destruct (IH (mid + 1) max) as (m & Hm & Hb & Hlo & Hhi);
        [unfold range_size; lia|lia| |
         eapply ascending_on_sub; [exact As|lia|lia]|].
      { eapply defined_on_sub; [exact D|lia|lia]. }
      exists m. repeat split; try lia; try assumption.
      intros i r z Hi Hri Hz.
      destruct (Z_le_gt_dec (mid + 1) i) as [L|G].
      * eapply Hlo; eauto. lia.
      * assert (z <= zm) by (eapply (As i mid); eauto; lia). lia.
  - exists min. repeat split; try lia; intros; lia.
Qed.

Lemma binSearch_spec : forall min max,
  min <= max + 1 ->
  defined_on getRow key min max -> ascending_on getRow key min max ->
  exists res,
    binSearch getRow key (Some t) min max = OK res /\
    binSearch_post getRow key t min max res.
Proof.
  intros min max; pattern min, max; apply range_ind; clear min max.
  intros min max IH Hr D As.
  rewrite binSearch_eq.
  destruct (min <=? max) eqn:E; fuel_step.
  - pose proof (mid_bounds min max E) as Hmid. cbv zeta.
    set (mid := (min + max) / 2) in *.
    destruct (D mid Hmid) as (rm & zm & Hrm & Hzm).
    rewrite Hrm. simpl. rewrite Hzm. simpl.
    destruct (t <? zm) eqn:C;
      [apply Z.ltb_lt in C|apply Z.ltb_ge in C].
    + destruct (IH min (mid - 1)) as (res & Hres & Hpost);
        [unfold range_size; lia|lia| |
         eapply ascending_on_sub; [exact As|lia|lia]|].
      { eapply defined_on_sub; [exact D|lia|lia]. }
      exists res. split; [exact Hres|].
      unfold binSearch_post in *.
      destruct (dataRow res) as [r|].
      * destruct Hpost as (Hb & ? & ?). repeat split; try lia; assumption.
      * destruct Hpost as (Hb & Hlo & Hhi). repeat split; try lia; try assumption.
        intros i r z Hi Hri Hz.
        destruct (Z_le_gt_dec i (mid - 1)) as [L|G].
        -- eapply Hhi; eauto. lia.
        -- assert (zm <= z) by (eapply (As mid i); eauto; lia). lia.
    + destruct (zm <? t) eqn:C';
        [apply Z.ltb_lt in C'|apply Z.ltb_ge in C'].
      * destruct (IH (mid + 1) max) as (res & Hres & Hpost);
          [unfold range_size; lia|lia| |
           eapply ascending_on_sub; [exact As|lia|lia]|].
        { eapply defined_on_sub; [exact D|lia|lia]. }
        exists res. split; [exact Hres|].
        unfold binSearch_post in *.
        destruct (dataRow res) as [r|].
        -- destruct Hpost as (Hb & ? & ?). repeat split; try lia; assumption.
        -- destruct Hpost as (Hb & Hlo & Hhi).
           repeat split; try lia; try assumption.
           intros i r z Hi Hri Hz.
           destruct (Z_le_gt_dec (mid + 1) i) as [L|G].
           ++ eapply Hlo; eauto. lia.
           ++ assert (z <= zm) by (eapply (As i mid); eauto; lia). lia.
      * eexists. split; [reflexivity|].
        unfold binSearch_post. simpl. rewrite Hrm.
        repeat split; try lia. rewrite Hzm. f_equal. lia.
  - eexists. split; [reflexivity|].
    unfold binSearch_post. simpl. repeat split; try lia; intros; lia.
Qed.
End ColumnSearch.

(** ** Primary-key tuples and their order *)

Lemma has_key_lookup (r : Row) (k : string) :
  has_key r k = true -> exists z, lookup r k = Some z.
Proof.
  unfold has_key. destruct (lookup r k) as [z|]; [eauto|discriminate].
Qed.

Lemma complete_cons (c : string) (ks : list string) (r : Row) :
  complete (c :: ks) r = true ->
  (exists z, lookup r c = Some z) /\ complete ks r = true.
Proof.
  unfold complete. simpl. intros H. apply andb_prop in H as [H1 H2].
  split; [apply has_key_lookup|]; assumption.
Qed.

Lemma lex_lt_le (a b : list value) : lex_lt a b = true -> lex_le a b = true.
Proof.
  revert b. induction a as [|x a IH]; intros [|y b]; simpl; try reflexivity;
    try discriminate.
  destruct (JS.lt x y); simpl; [reflexivity|].
  destruct (JS.gt x y); simpl; [discriminate|apply IH].
Qed.

Lemma lex_lt_irrefl (zs : list Z) : lex_lt (map Some zs) (map Some zs) = false.
Proof.
  induction zs as [|z zs IH]; simpl; [reflexivity|].
  rewrite Z.ltb_irrefl. simpl. exact IH.
Qed.

Lemma complete_tuple (pk : list string) (r : Row) :
  complete pk r = true -> exists zs, tuple pk r = map Some zs.
Proof.
  induction pk as [|c pk IH]; intros H.
  - exists []. reflexivity.
  - apply complete_cons in H as [[z Hz] Hc].
    destruct (IH Hc) as [zs Hzs]. exists (z :: zs).
    unfold tuple in *. simpl. rewrite Hz, Hzs. reflexivity.
Qed.

Lemma lex_le_trans (a b c : list Z) :
  length a = length b -> length b = length c ->
  lex_le (map Some a) (map Some b) = true ->
  lex_le (map Some b) (map Some c) = true ->
  lex_le (map Some a) (map Some c) = true.
Proof.
  revert b c.
  induction a as [|x a IH]; intros [|y b] [|z c]; simpl; try reflexivity;
    try discriminate.
  intros L1 L2 H1 H2.
  destruct (x <? y) eqn:Exy, (y <? x) eqn:Eyx, (y <? z) eqn:Eyz,
           (z <? y) eqn:Ezy, (x <? z) eqn:Exz, (z <? x) eqn:Ezx;
    simpl in *; try reflexivity; try discriminate;
    try (apply (IH b c); congruence);
    repeat match goal with
           | H : (_ <? _) = true |- _ => apply Z.ltb_lt in H
           | H : (_ <? _) = false |- _ => apply Z.ltb_ge in H
           end; lia.
Qed.

Lemma lex_le_total (a b : list Z) :
  length a = length b ->
  lex_le (map Some a) (map Some b) = false ->
  lex_le (map Some b) (map Some a) = true.
Proof.
  revert b.
  induction a as [|x a IH]; intros [|y b]; simpl; try reflexivity;
    try discriminate.
  intros L H.
  destruct (x <? y) eqn:Exy, (y <? x) eqn:Eyx; simpl in *;
    try reflexivity; try discriminate.
  apply IH; congruence.
Qed.

(** ** The column-by-column search over an ordered accessor *)

Lemma skipn_cons_nth {A} (i : nat) (l : list A) (x d : A) (t : list A) :
  skipn i l = x :: t -> nth i l d = x /\ skipn (S i) l = t.
Proof.
  revert l. induction i as [|i IH]; intros [|y l] H; simpl in *;
    try discriminate.
  - inversion H. auto.
  - apply IH. exact H.
Qed.

Lemma firstn_pred_cons {A} (c c' : A) (ks : list A) :
  firstn (length (c :: c' :: ks) - 1) (c :: c' :: ks) =
  c :: firstn (length (c' :: ks) - 1) (c' :: ks).
Proof. simpl. rewrite Nat.sub_0_r. reflexivity. Qed.

Section Chain.
Variable getRow : Z -> option Row.

Lemma search_from_one (sarg : list value) (c : string) (i : nat) (min max : Z) :
  search_from getRow sarg [c] i min max =
  binSearch getRow c (nth i sarg None) min max.
Proof. unfold search_from. simpl. rewrite Nat.add_0_r. reflexivity. Qed.

Lemma search_from_cons (sarg : list value) (c c' : string)
    (ks : list string) (i : nat) (min max : Z) :
  search_from getRow sarg (c :: c' :: ks) i min max =
  rbind (binSearchMin getRow c (nth i sarg None) min max) (fun min' =>
  rbind (binSearchMax getRow c (nth i sarg None) min' max) (fun m =>
    search_from getRow sarg (c' :: ks) (S i) min' (m - 1))).
Proof.
  unfold search_from. rewrite firstn_pred_cons.
  cbn [narrow].
  destruct (binSearchMin getRow c (nth i sarg None) min max) as [min'|e];
    simpl; [|reflexivity].
  destruct (binSearchMax getRow c (nth i sarg None) min' max) as [m|e];
    simpl; [|reflexivity].
  rewrite Nat.sub_0_r.
  replace (i + S (length ks))%nat with (S (i + length ks)) by lia.
  reflexivity.
Qed.

Lemma complete_on_defined (c : string) (ks : list string) (min max : Z) :
  complete_on getRow (c :: ks) min max -> defined_on getRow c min max.
Proof.
  intros C i Hi. destruct (C i Hi) as (r & Hr & Hc).
  apply complete_cons in Hc as [[z Hz] _]. eauto.
Qed.

Lemma sorted_on_ascending (c : string) (ks : list string) (min max : Z) :
  sorted_on getRow (c :: ks) min max -> ascending_on getRow c min max.
Proof.
  intros S i j ri rj zi zj H1 H2 H3 Hri Hrj Hzi Hzj.
  specialize (S i j ri rj H1 H2 H3 Hri Hrj).
  unfold tuple in S. simpl in S. rewrite Hzi, Hzj in S. simpl in S.
  destruct (zi <? zj) eqn:E1; [apply Z.ltb_lt in E1; lia|].
  destruct (zj <? zi) eqn:E2; [discriminate|].
  apply Z.ltb_ge in E1, E2. lia.
Qed.

Lemma search_from_spec (ks : list string) :
  ks <> [] ->
  forall vs sarg i min max,
    length vs = length ks -> skipn i sarg = map Some vs ->
    min <= max + 1 ->
    complete_on getRow ks min max -> sorted_on getRow ks min max ->
    exists res,
      search_from getRow sarg ks i min max = OK res /\
      search_post getRow ks vs min max res.
Proof.
  induction ks as [|c ks IH]; [congruence|]. intros _.
  intros [|v vs] sarg i min max L Hs Hr C S; [discriminate|].
  simpl in Hs. apply (@skipn_cons_nth value _ _ _ None) in Hs as [Hv Hs].
  pose proof (complete_on_defined _ _ _ _ C) as D.
  pose proof (sorted_on_ascending _ _ _ _ S) as As.
  destruct ks as [|c' ks].
  - (* last column *)
    destruct vs; [|discriminate].
    rewrite search_from_one, Hv.
    destruct (binSearch_spec getRow c v min max Hr D As) as (res & Hres & Hp).
    exists res. split; [exact Hres|].
    unfold binSearch_post in Hp. unfold search_post, tuple.
    destruct (dataRow res) as [r|].
    + destruct Hp as (Hb & Hg & Hl). repeat split; try lia; try assumption.
      simpl. rewrite Hl. reflexivity.
    + destruct Hp as (Hb & Hlo & Hhi). repeat split; try lia.
      * intros j r Hj Hrj.
        destruct (D j ltac:(lia)) as (r' & z & Hr' & Hz).
        rewrite Hrj in Hr'. inversion Hr'; subst r'.
        simpl. rewrite Hz. simpl.
        specialize (Hlo j r z Hj Hrj Hz).
        apply Z.ltb_lt in Hlo. rewrite Hlo. reflexivity.
      * intros j r Hj Hrj.
        destruct (D j ltac:(lia)) as (r' & z & Hr' & Hz).
        rewrite Hrj in Hr'. inversion Hr'; subst r'.
        simpl. rewrite Hz. simpl.
        specialize (Hhi j r z Hj Hrj Hz).
        apply Z.ltb_lt in Hhi. rewrite Hhi. reflexivity.
  - (* a narrowing column *)
    rewrite search_from_cons, Hv.
    destruct (binSearchMin_spec getRow c v min max Hr D As)
      as (min' & Hmin & Hbmin & Hlt & Hge).
    rewrite Hmin. simpl.
    assert (D' : defined_on getRow c min' max)
      by (eapply defined_on_sub; [exact D|lia|lia]).
    assert (As' : ascending_on getRow c min' max)
      by (eapply ascending_on_sub; [exact As|lia|lia]).
    destruct (binSearchMax_spec getRow c v min' max ltac:(lia) D' As')
      as (m & Hmax & Hbmax & Hle & Hgt).
    rewrite Hmax. simpl.
    assert (Heq : forall j r, min' <= j <= m - 1 -> getRow j = Some r ->
                              lookup r c = Some v).
    { intros j r Hj Hrj.
      destruct (D j ltac:(lia)) as (r' & z & Hr' & Hz).
      rewrite Hrj in Hr'. inversion Hr'; subst r'.
      assert (v <= z) by (eapply Hge; eauto; lia).
      assert (z <= v) by (eapply Hle; eauto; lia).
      rewrite Hz. f_equal. lia. }
    destruct (IH ltac:(discriminate) vs sarg (Datatypes.S i) min' (m - 1))
      as (res & Hres & Hp).
    + simpl in L. simpl. lia.
    + exact Hs.
    + lia.
    + intros j Hj. destruct (C j ltac:(lia)) as (r & Hrj & Hc).
      apply complete_cons in Hc as [_ Hc]. eauto.
    + intros j k rj rk H1 H2 H3 Hrj Hrk.
      specialize (S j k rj rk ltac:(lia) H2 ltac:(lia) Hrj Hrk).
      unfold tuple in S. cbn [map lex_le] in S.
      rewrite (Heq j rj ltac:(lia) Hrj), (Heq k rk ltac:(lia) Hrk) in S.
      simpl in S. rewrite Z.ltb_irrefl in S. simpl in S. exact S.
    + exists res. split; [exact Hres|].
      unfold search_post in *.
      destruct (dataRow res) as [r|].
      * destruct Hp as (Hb & Hg & Ht). repeat split; try lia; try assumption.
        change (tuple (c :: c' :: ks) r)
          with (lookup r c :: tuple (c' :: ks) r).
        rewrite Ht, (Heq _ r Hb Hg). reflexivity.
      * destruct Hp as (Hb & Hlo & Hhi). repeat split; try lia.
        -- intros j r Hj Hrj. unfold tuple. cbn [map lex_lt].
           destruct (Z_lt_ge_dec j min') as [Lj|Gj].
           ++ destruct (D j ltac:(lia)) as (r' & z & Hr' & Hz).
              rewrite Hrj in Hr'. inversion Hr'; subst r'.
              rewrite Hz. simpl.
              assert (z < v) by (eapply Hlt; eauto; lia).
              apply Z.ltb_lt in H. rewrite H. reflexivity.
           ++ rewrite (Heq j r ltac:(lia) Hrj). simpl.
              rewrite Z.ltb_irrefl. simpl.
              apply (Hlo j r); [lia|exact Hrj].
        -- intros j r Hj Hrj. unfold tuple. cbn [map lex_lt].
           destruct (Z_lt_ge_dec j m) as [Lj|Gj].
           ++ rewrite (Heq j r ltac:(lia) Hrj). simpl.
              rewrite Z.ltb_irrefl. simpl.
              apply (Hhi j r); [lia|exact Hrj].
           ++ destruct (D j ltac:(lia)) as (r' & z & Hr' & Hz).
              rewrite Hrj in Hr'. inversion Hr'; subst r'.
              rewrite Hz. simpl.
              assert (v < z) by (eapply Hgt; eauto; lia).
              apply Z.ltb_lt in H. rewrite H. reflexivity.
Qed.
End Chain.

Lemma search_is_search_from (st : State) (pk : list string)
    (sarg : list value) :
  search st pk sarg =
  search_from (accessor st) sarg pk 0 0 (getRowCount st - 1).
Proof. reflexivity. Qed.

(** ** Array.prototype.sort with a consistent comparator *)

Section StronglySortedFacts.
Context {A : Type}.
Variable R : A -> A -> Prop.

Lemma ssorted_app (l1 l2 : list A) :
  StronglySorted R l1 -> StronglySorted R l2 ->
  (forall a b, In a l1 -> In b l2 -> R a b) ->
  StronglySorted R (l1 ++ l2).
Proof.
  induction l1 as [|x l1 IH]; intros S1 S2 H; simpl; [exact S2|].
  apply StronglySorted_inv in S1 as [S1 F1].
  constructor.
  - apply IH; [exact S1|exact S2|]. intros a b Ha Hb. apply H; simpl; auto.
  - apply Forall_app. split; [exact F1|].
    apply Forall_forall. intros b Hb. apply H; simpl; auto.
Qed.

Lemma ssorted_app_inv (l1 l2 : list A) :
  StronglySorted R (l1 ++ l2) ->
  StronglySorted R l1 /\ StronglySorted R l2 /\
  (forall a b, In a l1 -> In b l2 -> R a b).
Proof.
  induction l1 as [|x l1 IH]; simpl; intros S.
  - repeat split; [constructor|exact S|contradiction].
  - apply StronglySorted_inv in S as [S F].
    destruct (IH S) as (S1 & S2 & H).
    apply Forall_app in F as [F1 F2].
    repeat split; [constructor; assumption|exact S2|].
    intros a b [->|Ha] Hb; [|auto].
    rewrite Forall_forall in F2. auto.
Qed.

Lemma ssorted_nth (l : list A) (i j : nat) (a b : A) :
  StronglySorted R l -> (i < j)%nat ->
  nth_error l i = Some a -> nth_error l j = Some b -> R a b.
Proof.
  intros S. revert i j.
  induction S as [|x l S IH F]; intros i j Hij Hi Hj.
  - destruct i; discriminate.
  - destruct j as [|j]; [lia|]. simpl in Hj.
    destruct i as [|i]; simpl in Hi.
    + inversion Hi; subst x. rewrite Forall_forall in F.
      apply F. eapply nth_error_In; eauto.
    + eapply IH; [|exact Hi|exact Hj]. lia.
Qed.
End StronglySortedFacts.

Section SortSpec.
Context {A : Type}.
Variable cmp : A -> A -> result Z.
Variable le : A -> A -> Prop.
Variable dom : A -> Prop.

Hypothesis cmp_le : forall a b, dom a -> dom b ->
  exists c, cmp a b = OK c /\ (c <= 0 -> le a b) /\ (0 < c -> le b a).
Hypothesis le_trans : forall a b c, dom a -> dom b -> dom c ->
  le a b -> le b c -> le a c.

Lemma sort_insert_spec (x : A) (l : list A) :
  dom x -> Forall dom l -> StronglySorted le l ->
  exists s, sort_insert cmp x l = OK s /\ Permutation (x :: l) s /\
            StronglySorted le s.
Proof.
  intros Dx. induction l as [|y l IH]; intros Dl S.
  - exists [x]. repeat split; [apply Permutation_refl|repeat constructor].
  - apply Forall_cons_iff in Dl as [Dy Dl].
    apply StronglySorted_inv in S as [S F].
    simpl. destruct (cmp_le x y Dx Dy) as (c & Hc & Hle & Hgt).
    rewrite Hc. simpl.
    destruct (c <=? 0) eqn:E; fuel_step.
    + exists (x :: y :: l). repeat split; [apply Permutation_refl|].
      constructor; [constructor; assumption|].
      constructor; [auto|].
      rewrite Forall_forall in F, Dl |- *.
      intros z Hz. eapply (le_trans x y z); auto.
    + destruct (IH Dl S) as (s & Hs & Hp & Hss).
      rewrite Hs. simpl. exists (y :: s). repeat split.
      * eapply perm_trans; [apply perm_swap|apply perm_skip; exact Hp].
      * constructor; [exact Hss|].
        eapply Permutation_Forall; [exact Hp|].
        constructor; [apply Hgt; lia|exact F].
Qed.

Lemma array_sort_spec (l : list A) :
  Forall dom l ->
  exists s, array_sort cmp l = OK s /\ Permutation l s /\
            StronglySorted le s.
Proof.
  induction l as [|x l IH]; intros D.
  - exists []. repeat split; constructor.
  - apply Forall_cons_iff in D as [Dx Dl].
    destruct (IH Dl) as (s & Hs & Hp & Hss).
    simpl. rewrite Hs. simpl.
    destruct (sort_insert_spec x s Dx) as (s' & Hs' & Hp' & Hss');
      [eapply Permutation_Forall; eauto|exact Hss|].
    exists s'. repeat split; [exact Hs'| |exact Hss'].
    eapply perm_trans; [apply perm_skip; exact Hp|exact Hp'].
Qed.
End SortSpec.

(** ** The ordered index *)

Lemma comparator_find_lex (pk : list string) (ra rb : Row) :
  exists c, comparator_find (Some ra) (Some rb) pk = OK c /\
            (c <=? 0) = lex_le (tuple pk ra) (tuple pk rb).
Proof.
  induction pk as [|k pk IH]; simpl.
  - exists 0. split; reflexivity.
  - destruct (JS.lt (lookup ra k) (lookup rb k)); simpl.
    + exists (-1). split; reflexivity.
    + destruct (JS.gt (lookup ra k) (lookup rb k)); simpl.
      * exists 1. split; reflexivity.
      * exact IH.
Qed.

Lemma row_le_trans (pk : list string) (a b c : Row) :
  complete pk a = true -> complete pk b = true -> complete pk c = true ->
  row_le pk a b -> row_le pk b c -> row_le pk a c.
Proof.
  unfold row_le. intros Ca Cb Cc.
  destruct (complete_tuple _ _ Ca) as [za Ha].
  destruct (complete_tuple _ _ Cb) as [zb Hb].
  destruct (complete_tuple _ _ Cc) as [zc Hc].
  rewrite Ha, Hb, Hc. apply lex_le_trans.
  - apply (f_equal (@length _)) in Ha, Hb. unfold tuple in *.
    rewrite !length_map in *. congruence.
  - apply (f_equal (@length _)) in Hc, Hb. unfold tuple in *.
    rewrite !length_map in *. congruence.
Qed.

Lemma row_le_total (pk : list string) (a b : Row) :
  complete pk a = true -> complete pk b = true ->
  lex_le (tuple pk a) (tuple pk b) = false -> row_le pk b a.
Proof.
  unfold row_le. intros Ca Cb.
  destruct (complete_tuple _ _ Ca) as [za Ha].
  destruct (complete_tuple _ _ Cb) as [zb Hb].
  rewrite Ha, Hb. apply lex_le_total.
  apply (f_equal (@length _)) in Ha, Hb. unfold tuple in *.
  rewrite !length_map in *. congruence.
Qed.

Lemma row_le_refl (pk : list string) (a : Row) : row_le pk a a.
Proof.
  unfold row_le. induction pk as [|k pk IH]; simpl; [reflexivity|].
  destruct (lookup a k) as [z|]; simpl; [rewrite Z.ltb_irrefl|]; exact IH.
Qed.

Lemma index_Some {A} (l : list A) (i : Z) (a : A) :
  JS.index l i = Some a <-> 0 <= i /\ nth_error l (Z.to_nat i) = Some a.
Proof.
  unfold JS.index. destruct (i <? 0) eqn:E.
  - apply Z.ltb_lt in E. split; [discriminate|lia].
  - apply Z.ltb_ge in E. tauto.
Qed.

Lemma index_bounds {A} (l : list A) (i : Z) (a : A) :
  JS.index l i = Some a -> 0 <= i < Z.of_nat (length l).
Proof.
  intros H. apply index_Some in H as [H0 H].
  assert (Z.to_nat i < length l)%nat by (apply nth_error_Some; congruence).
  lia.
Qed.

Lemma index_defined {A} (l : list A) (i : Z) :
  0 <= i < Z.of_nat (length l) -> exists a, JS.index l i = Some a.
Proof.
  intros H. destruct (nth_error l (Z.to_nat i)) as [a|] eqn:E.
  - exists a. apply index_Some. split; [lia|exact E].
  - apply nth_error_None in E. lia.
Qed.

Lemma index_of_nat {A} (l : list A) (n : nat) :
  JS.index l (Z.of_nat n) = nth_error l n.
Proof.
  unfold JS.index. destruct (Z.of_nat n <? 0) eqn:E.
  - apply Z.ltb_lt in E. lia.
  - rewrite Nat2Z.id. reflexivity.
Qed.

Lemma index_In {A} (l : list A) (i : Z) (a : A) :
  JS.index l i = Some a -> In a l.
Proof. intros H. apply index_Some in H as [_ H]. eapply nth_error_In; eauto. Qed.

Lemma In_index {A} (l : list A) (a : A) :
  In a l -> exists i, JS.index l i = Some a.
Proof.
  intros H. apply In_nth_error in H as [n Hn].
  exists (Z.of_nat n). rewrite index_of_nat. exact Hn.
Qed.

Lemma In_identity (n : nat) (y : Z) :
  In y (identity n) <-> 0 <= y < Z.of_nat n.
Proof.
  unfold identity. rewrite in_map_iff. split.
  - intros (k & <- & Hk). apply in_seq in Hk. lia.
  - intros H. exists (Z.to_nat y). split; [lia|]. apply in_seq. lia.
Qed.

Lemma length_identity (n : nat) : length (identity n) = n.
Proof. unfold identity. rewrite length_map, length_seq. reflexivity. Qed.

Lemma identity_S (n : nat) : identity (S n) = identity n ++ [Z.of_nat n].
Proof.
  unfold identity. rewrite seq_S, map_app. reflexivity.
Qed.

Lemma views_exists (rows : list Row) (px : list Z) :
  Forall (fun y => 0 <= y < Z.of_nat (length rows)) px ->
  exists rs, views rows px rs.
Proof.
  induction px as [|y px IH]; intros F.
  - exists []. constructor.
  - apply Forall_cons_iff in F as [Hy F].
    destruct (IH F) as [rs Hrs].
    destruct (index_defined rows y Hy) as [r Hr].
    exists (r :: rs). constructor; assumption.
Qed.

Lemma views_length (rows : list Row) (px : list Z) (rs : list Row) :
  views rows px rs -> length px = length rs.
Proof. apply Forall2_length. Qed.

Lemma views_nth (rows : list Row) (px : list Z) (rs : list Row) (i : Z) :
  views rows px rs ->
  match JS.index px i with
  | Some y => JS.index rows y
  | None => None
  end = JS.index rs i.
Proof.
  intros V. unfold JS.index at 1 3.
  destruct (i <? 0); [reflexivity|].
  generalize (Z.to_nat i) as n.
  induction V as [|y r px rs Hy V IH]; intros [|n]; simpl; auto.
Qed.

Lemma views_In (rows : list Row) (px : list Z) (rs : list Row) (r : Row) :
  views rows px rs -> In r rs -> In r rows.
Proof.
  intros V. induction V as [|y r' px rs Hy V IH]; simpl; [tauto|].
  intros [<-|H]; [eapply index_In; eauto|auto].
Qed.

Lemma ssorted_Forall2 {A B} (P : A -> B -> Prop)
    (R : A -> A -> Prop) (R' : B -> B -> Prop) :
  (forall a b a' b', P a a' -> P b b' -> R a b -> R' a' b') ->
  forall l l', Forall2 P l l' -> StronglySorted R l -> StronglySorted R' l'.
Proof.
  intros H l l' F. induction F as [|a a' l l' Pa F IH]; intros S.
  - constructor.
  - apply StronglySorted_inv in S as [S Fa].
    constructor; [auto|].
    clear IH S. induction F as [|b b' l l' Pb F IH]; [constructor|].
    apply Forall_cons_iff in Fa as [Rab Fa].
    constructor; [eapply H; eauto|auto].
Qed.

Lemma getIndexedRow_views (st : State) (px : list Z) (rs : list Row) :
  PX st = Some px -> views (data st) px rs ->
  forall i, getIndexedRow st i = JS.index rs i.
Proof.
  intros Hpx V i. unfold getIndexedRow, getRow. rewrite Hpx.
  apply views_nth. exact V.
Qed.

(** A list of rows in primary-key order is an ordered accessor. *)
Lemma ordered_of_list (getRow : Z -> option Row) (pk : list string)
    (rs : list Row) :
  (forall i, getRow i = JS.index rs i) ->
  StronglySorted (row_le pk) rs ->
  Forall (fun r => complete pk r = true) rs ->
  complete_on getRow pk 0 (Z.of_nat (length rs) - 1) /\
  sorted_on getRow pk 0 (Z.of_nat (length rs) - 1).
Proof.
  intros Hget S C. split.
  - intros i Hi. destruct (index_defined rs i ltac:(lia)) as [r Hr].
    exists r. rewrite Hget. split; [exact Hr|].
    rewrite Forall_forall in C. apply C. eapply index_In; eauto.
  - intros i j ri rj H0 Hij Hj Hri Hrj.
    rewrite Hget in Hri, Hrj.
    apply index_Some in Hri as [_ Hri]. apply index_Some in Hrj as [_ Hrj].
    destruct (Z.eq_dec i j) as [->|N].
    + rewrite Hri in Hrj. inversion Hrj; subst. apply row_le_refl.
    + eapply (ssorted_nth (row_le pk) rs (Z.to_nat i) (Z.to_nat j));
        eauto. lia.
Qed.

(** Two readings of one position give one row. *)
Ltac same_row H1 H2 :=
  let E := fresh "E" in
  pose proof (eq_trans (eq_sym H1) H2) as E; inversion E; subst; clear E.

(** The rebuild of [derivePX] succeeds and establishes the invariant. *)
Lemma rebuildPX_valid (st : State) (pk : list string) :
  PK st = Some pk -> all_complete pk (data st) ->
  exists px, rebuildPX st = OK px /\ valid_index (data st) pk px.
Proof.
  intros Hpk C. unfold rebuildPX.
  set (rows := data st) in *.
  destruct (array_sort_spec (comparator st)
              (fun a b => forall ra rb, JS.index rows a = Some ra ->
                                        JS.index rows b = Some rb ->
                                        row_le pk ra rb)
              (fun y => 0 <= y < Z.of_nat (length rows)))
    with (l := identity (length rows)) as (px & Hpx & Hperm & Hs).
  - intros a b Da Db. unfold comparator, getRow. rewrite Hpk. fold rows.
    destruct (index_defined rows a Da) as [ra Hra].
    destruct (index_defined rows b Db) as [rb Hrb].
    rewrite Hra, Hrb.
    destruct (comparator_find_lex pk ra rb) as (c & Hc & Hle).
    exists c. split; [exact Hc|]. unfold all_complete in C.
    rewrite Forall_forall in C. split.
    + intros Hc0 ra' rb' Ha Hb. inversion Ha; inversion Hb; subst.
      unfold row_le. rewrite <- Hle. apply Z.leb_le. exact Hc0.
    + intros Hc0 rb' ra' Hb Ha. inversion Ha; inversion Hb; subst.
      apply row_le_total; [eapply C, index_In; eauto..|].
      rewrite <- Hle. apply Z.leb_gt. exact Hc0.
  - intros a b c Da Db Dc Hab Hbc ra rc Hra Hrc.
    destruct (index_defined rows b Db) as [rb Hrb].
    unfold all_complete in C. rewrite Forall_forall in C.
    apply (row_le_trans pk ra rb rc);
      try (eapply C, index_In; eauto); auto.
  - apply Forall_forall. intros y Hy. apply In_identity. exact Hy.
  - exists px. split; [exact Hpx|]. split; [apply Permutation_sym; exact Hperm|].
    destruct (views_exists rows px) as [rs V].
    { apply Forall_forall. intros y Hy. apply In_identity.
      eapply Permutation_in; [apply Permutation_sym; exact Hperm|exact Hy]. }
    exists rs. split; [exact V|].
    eapply ssorted_Forall2; [|exact V|exact Hs].
    intros a b ra rb Ha Hb H. apply H; assumption.
Qed.

(** ** The steps of [find] *)

Lemma sarg_values_tuple (o : Row) (pk : list string) (t : list value) :
  sarg_values o pk = OK t -> t = tuple pk o /\ complete pk o = true.
Proof.
  revert t. induction pk as [|k pk IH]; simpl; intros t H.
  - inversion H. auto.
  - unfold complete. simpl. destruct (has_key o k); [|discriminate].
    destruct (sarg_values o pk) as [vs|e]; [|discriminate].
    simpl in H. inversion H. destruct (IH vs eq_refl) as [-> Hc].
    split; [reflexivity|exact Hc].
Qed.

Lemma complete_sarg_values (o : Row) (pk : list string) :
  complete pk o = true -> sarg_values o pk = OK (tuple pk o).
Proof.
  induction pk as [|k pk IH]; simpl; intros H; [reflexivity|].
  unfold complete in H. simpl in H. apply andb_prop in H as [H1 H2].
  rewrite H1, (IH H2). reflexivity.
Qed.

Lemma normalize_length (pk : list string) (sarg : Sarg) (t : list value) :
  normalize pk sarg = OK t -> length t = length pk.
Proof.
  destruct sarg as [o|v]; simpl.
  - intros H. apply sarg_values_tuple in H as [-> _].
    unfold tuple. apply length_map.
  - destruct (length pk =? 1)%nat eqn:E; [|discriminate].
    apply Nat.eqb_eq in E. intros H. inversion H. simpl. congruence.
Qed.

Lemma find_presorted (st : State) (sarg : Sarg) (options : Options)
    (pk : list string) (t : list value) :
  derivePK st sarg = OK pk -> presorted options = true ->
  normalize pk sarg = OK t ->
  find sarg options st =
  (resolved pk None st, search (resolved pk None st) pk t).
Proof.
  intros Hpk Hpre Hn. unfold find, bind, reading, modify, ret, throw.
  rewrite Hpk, Hpre, Hn.
  rewrite (normalize_length _ _ _ Hn), Nat.eqb_refl. reflexivity.
Qed.

Lemma find_indexed (st : State) (sarg : Sarg) (options : Options)
    (pk : list string) (px : list Z) (t : list value) :
  derivePK st sarg = OK pk -> presorted options = false ->
  derivePX (before_derivePX pk options st) = OK px ->
  normalize pk sarg = OK t ->
  find sarg options st =
  (resolved pk (Some px) st, search (resolved pk (Some px) st) pk t).
Proof.
  intros Hpk Hpre Hpx Hn. unfold find, bind, reading, modify, ret, throw.
  rewrite Hpk, Hpre. unfold before_derivePX in Hpx.
  destruct (reindex options); rewrite Hpx, Hn;
    rewrite (normalize_length _ _ _ Hn), Nat.eqb_refl; reflexivity.
Qed.

(** What [find] leaves in [this.PX] is decided before the search: whatever
    the outcome, the row store and the request record are untouched. *)
Lemma find_frame (st st' : State) (sarg : Sarg) (options : Options)
    (res : result Found) :
  find sarg options st = (st', res) ->
  data st' = data st /\ published st' = published st /\
  local st' = local st /\ handlesAdd st' = handlesAdd st /\
  handlesDel st' = handlesDel st.
Proof.
  unfold find, bind, reading, modify, ret, throw.
  destruct (derivePK st sarg) as [pk|e]; [|intros H; inversion H; auto 6].
  destruct (presorted options).
  - destruct (normalize pk sarg) as [t|e]; [|intros H; inversion H; auto 6].
    destruct (length t =? length pk)%nat; intros H; inversion H; auto 6.
  - destruct (reindex options).
    + destruct (derivePX _) as [px|e]; [|intros H; inversion H; auto 6].
      destruct (normalize pk sarg) as [t|e]; [|intros H; inversion H; auto 6].
      destruct (length t =? length pk)%nat; intros H; inversion H; auto 6.
    + destruct (derivePX _) as [px|e]; [|intros H; inversion H; auto 6].
      destruct (normalize pk sarg) as [t|e]; [|intros H; inversion H; auto 6].
      destruct (length t =? length pk)%nat; intros H; inversion H; auto 6.
Qed.

Lemma derivePX_valid (st : State) (pk : list string) (options : Options) :
  all_complete pk (data st) -> index_ok pk st ->
  exists px,
    derivePX (before_derivePX pk options st) = OK px /\
    valid_index (data st) pk px /\
    (reindex options = false ->
     forall y cached, PX st = Some (y :: cached) -> px = y :: cached).
Proof.
  intros C Hok. unfold before_derivePX, derivePX.
  destruct (reindex options).
  - destruct (rebuildPX_valid (setPX None (setPK (Some pk) st)) pk eq_refl C)
      as (px & Hpx & Hv).
    exists px. simpl. split; [exact Hpx|]. split; [exact Hv|discriminate].
  - simpl. unfold index_ok in Hok.
    destruct (PX st) as [[|y cached]|] eqn:E.
    + destruct (rebuildPX_valid (setPK (Some pk) st) pk eq_refl C)
        as (px & Hpx & Hv).
      exists px. split; [exact Hpx|]. split; [exact Hv|discriminate].
    + exists (y :: cached). split; [reflexivity|]. split; [exact Hok|].
      intros _ y' c' H. inversion H. reflexivity.
    + destruct (rebuildPX_valid (setPK (Some pk) st) pk eq_refl C)
        as (px & Hpx & Hv).
      exists px. split; [exact Hpx|]. split; [exact Hv|discriminate].
Qed.

(** ** The search over an ordered instance *)

Lemma seen_presorted (st : State) : PX st = None -> seen_as st (data st).
Proof.
  intros H. split; [|reflexivity]. intros i. unfold accessor. rewrite H.
  reflexivity.
Qed.

Lemma views_covers (rows : list Row) (px : list Z) (rs : list Row) (r : Row) :
  Permutation px (identity (length rows)) -> views rows px rs ->
  In r rows -> In r rs.
Proof.
  intros P V Hr. apply In_index in Hr as [y Hy].
  assert (Hin : In y px).
  { eapply Permutation_in; [apply Permutation_sym; exact P|].
    apply In_identity. eapply index_bounds; eauto. }
  clear P. induction V as [|y' r' px rs Hy' V IH]; simpl in *; [tauto|].
  destruct Hin as [->|Hin]; [left|right; auto].
  same_row Hy' Hy. reflexivity.
Qed.

Lemma seen_indexed (st : State) (pk : list string) (px : list Z) :
  PX st = Some px -> valid_index (data st) pk px ->
  exists rs, seen_as st rs /\ views (data st) px rs /\
             StronglySorted (row_le pk) rs /\
             (forall r, In r rs <-> In r (data st)).
Proof.
  intros Hpx (P & rs & V & S). exists rs. repeat split; try assumption.
  - intros i. unfold accessor. rewrite Hpx.
    apply (getIndexedRow_views st px rs Hpx V).
  - rewrite <- (views_length _ _ _ V).
    rewrite (Permutation_length P). apply length_identity.
  - eapply views_In; eauto.
  - eapply views_covers; eauto.
Qed.

Lemma search_post_ext (g g' : Z -> option Row) (pk : list string)
    (vs : list Z) (min max : Z) (res : Found) :
  (forall i, g i = g' i) ->
  search_post g pk vs min max res -> search_post g' pk vs min max res.
Proof.
  intros E. unfold search_post. destruct (dataRow res) as [r|].
  - rewrite E. tauto.
  - intros (Hb & Hlo & Hhi). repeat split; try lia.
    + intros i r Hi Hr. rewrite <- E in Hr. eauto.
    + intros i r Hi Hr. rewrite <- E in Hr. eauto.
Qed.

Lemma search_ordered (st : State) (pk : list string) (rs : list Row)
    (vs : list Z) :
  pk <> [] -> seen_as st rs -> StronglySorted (row_le pk) rs ->
  Forall (fun r => complete pk r = true) rs -> length vs = length pk ->
  exists res,
    search st pk (map Some vs) = OK res /\
    search_post (JS.index rs) pk vs 0 (Z.of_nat (length rs) - 1) res.
Proof.
  intros Hpk [Hget Hlen] S C L.
  destruct (ordered_of_list (accessor st) pk rs Hget S C) as [Co So].
  rewrite search_is_search_from. unfold getRowCount. rewrite <- Hlen.
  destruct (search_from_spec (accessor st) pk Hpk vs (map Some vs) 0 0
              (Z.of_nat (length rs) - 1) L eq_refl ltac:(lia) Co So)
    as (res & Hres & Hpost).
  exists res. split; [exact Hres|].
  eapply search_post_ext; eauto.
Qed.

(** A miss means no row of the accessor holds the searched tuple. *)
Lemma search_post_miss (rs : list Row) (pk : list string) (vs : list Z)
    (res : Found) (r : Row) :
  search_post (JS.index rs) pk vs 0 (Z.of_nat (length rs) - 1) res ->
  dataRow res = None -> In r rs -> tuple pk r <> map Some vs.
Proof.
  unfold search_post. intros H E Hin Heq. rewrite E in H.
  destruct H as (Hb & Hlo & Hhi).
  apply In_index in Hin as [i Hi].
  pose proof (index_bounds _ _ _ Hi) as Bi.
  pose proof (lex_lt_irrefl vs) as Irr.
  destruct (Z_lt_ge_dec i (PX_index res)) as [L|G].
  - specialize (Hlo i r ltac:(lia) Hi). rewrite Heq in Hlo. congruence.
  - specialize (Hhi i r ltac:(lia) Hi). rewrite Heq in Hhi. congruence.
Qed.

(** A hit is a stored row holding the searched tuple. *)
Lemma search_post_hit (rs : list Row) (pk : list string) (vs : list Z)
    (res : Found) (r : Row) :
  search_post (JS.index rs) pk vs 0 (Z.of_nat (length rs) - 1) res ->
  dataRow res = Some r ->
  JS.index rs (PX_index res) = Some r /\ tuple pk r = map Some vs.
Proof.
  unfold search_post. intros H E. rewrite E in H. tauto.
Qed.

(** ** Splicing one entry into the index *)

Lemma Forall2_firstn {A B} (P : A -> B -> Prop) (n : nat) (l : list A)
    (l' : list B) :
  Forall2 P l l' -> Forall2 P (firstn n l) (firstn n l').
Proof.
  intros F. revert n. induction F; intros [|n]; simpl; constructor; auto.
Qed.

Lemma Forall2_skipn {A B} (P : A -> B -> Prop) (n : nat) (l : list A)
    (l' : list B) :
  Forall2 P l l' -> Forall2 P (skipn n l) (skipn n l').
Proof.
  intros F. revert n. induction F; intros [|n]; simpl; auto.
Qed.

Lemma In_firstn_index {A} (s : nat) (l : list A) (a : A) :
  In a (firstn s l) ->
  exists i, 0 <= i < Z.of_nat s /\ JS.index l i = Some a.
Proof.
  intros H. apply In_nth_error in H as [n Hn].
  assert (n < s)%nat.
  { assert (n < length (firstn s l))%nat by (apply nth_error_Some; congruence).
    rewrite length_firstn in H. lia. }
  exists (Z.of_nat n). split; [lia|].
  rewrite index_of_nat. rewrite nth_error_firstn in Hn.
  destruct (n <? s)%nat eqn:E; [exact Hn|discriminate].
Qed.

Lemma In_skipn_index {A} (s : nat) (l : list A) (a : A) :
  In a (skipn s l) ->
  exists i, Z.of_nat s <= i /\ JS.index l i = Some a.
Proof.
  intros H. apply In_nth_error in H as [n Hn].
  rewrite nth_error_skipn in Hn.
  exists (Z.of_nat (s + n)). split; [lia|].
  rewrite index_of_nat. exact Hn.
Qed.

Lemma index_app_old {A} (l : list A) (x : A) (i : Z) (a : A) :
  JS.index l i = Some a -> JS.index (l ++ [x]) i = Some a.
Proof.
  intros H. apply index_Some in H as [H0 H]. apply index_Some.
  split; [exact H0|]. rewrite nth_error_app1; [exact H|].
  apply nth_error_Some. congruence.
Qed.

Lemma index_app_new {A} (l : list A) (x : A) :
  JS.index (l ++ [x]) (Z.of_nat (length l)) = Some x.
Proof.
  rewrite index_of_nat, nth_error_app2, Nat.sub_diag; [reflexivity|lia].
Qed.

Lemma views_app_row (rows : list Row) (r : Row) (px : list Z) (rs : list Row) :
  views rows px rs -> views (rows ++ [r]) px rs.
Proof.
  intros V. induction V; constructor; auto. apply index_app_old. assumption.
Qed.

Lemma splice_insert_at {A} (l : list A) (p : Z) (x : A) :
  0 <= p <= Z.of_nat (length l) ->
  JS.splice_insert l p x =
  firstn (Z.to_nat p) l ++ x :: skipn (Z.to_nat p) l.
Proof.
  intros H. unfold JS.splice_insert, JS.splice_start.
  destruct (p <? 0) eqn:E; [apply Z.ltb_lt in E; lia|].
  rewrite Z.min_l by lia. reflexivity.
Qed.

(** Inserting the appended row's position at the insertion point keeps the
    invariant. *)
Lemma valid_index_insert (rows : list Row) (pk : list string) (px : list Z)
    (rs : list Row) (r : Row) (vs : list Z) (p : Z) :
  Permutation px (identity (length rows)) -> views rows px rs ->
  StronglySorted (row_le pk) rs ->
  tuple pk r = map Some vs ->
  0 <= p <= Z.of_nat (length rs) ->
  (forall i r', 0 <= i < p -> JS.index rs i = Some r' ->
                lex_lt (tuple pk r') (map Some vs) = true) ->
  (forall i r', p <= i <= Z.of_nat (length rs) - 1 -> JS.index rs i = Some r' ->
                lex_lt (map Some vs) (tuple pk r') = true) ->
  valid_index (rows ++ [r]) pk
    (JS.splice_insert px p (Z.of_nat (length rows))).
Proof.
  intros P V S Ht Hp Hlo Hhi.
  pose proof (views_length _ _ _ V) as Len.
  rewrite splice_insert_at by lia.
  set (s := Z.to_nat p).
  split.
  - rewrite length_app, Nat.add_comm. simpl. rewrite identity_S.
    eapply perm_trans; [apply Permutation_sym, Permutation_middle|].
    rewrite firstn_skipn.
    eapply perm_trans; [apply Permutation_cons_append|].
    apply Permutation_app_tail. exact P.
  - exists (firstn s rs ++ r :: skipn s rs). split.
    + apply Forall2_app; [apply Forall2_firstn, views_app_row; exact V|].
      constructor; [apply index_app_new|].
      apply Forall2_skipn, views_app_row. exact V.
    + rewrite <- (firstn_skipn s rs) in S.
      apply ssorted_app_inv in S as (S1 & S2 & Hcross).
      apply ssorted_app; [exact S1| |].
      * constructor; [exact S2|]. apply Forall_forall. intros b Hb.
        apply In_skipn_index in Hb as (i & Hi & Hb).
        pose proof (index_bounds _ _ _ Hb).
        unfold row_le. rewrite Ht. apply lex_lt_le.
        apply (Hhi i b); [subst s; lia|exact Hb].
      * intros a b Ha [<-|Hb]; [|auto].
        apply In_firstn_index in Ha as (i & Hi & Ha).
        unfold row_le. rewrite Ht. apply lex_lt_le.
        apply (Hlo i a); [subst s; lia|exact Ha].
Qed.

(** ** [find] on an instance whose index is in order *)

Lemma derivePK_cached (st : State) (sarg : Sarg) (pk : list string) :
  PK st = Some pk -> pk <> [] -> derivePK st sarg = OK pk.
Proof.
  intros H N. unfold derivePK. rewrite H. destruct pk; [congruence|reflexivity].
Qed.

Lemma all_complete_views (pk : list string) (rows : list Row) (px : list Z)
    (rs : list Row) :
  all_complete pk rows -> views rows px rs ->
  Forall (fun r => complete pk r = true) rs.
Proof.
  intros C V. unfold all_complete in C. rewrite Forall_forall in C |- *.
  intros r Hr. apply C. eapply views_In; eauto.
Qed.

Lemma find_on_index (st : State) (sarg : Sarg) (options : Options)
    (pk : list string) (vs : list Z) :
  derivePK st sarg = OK pk -> pk <> [] ->
  all_complete pk (data st) -> index_ok pk st ->
  presorted options = false -> normalize pk sarg = OK (map Some vs) ->
  exists px rs res,
    find sarg options st = (resolved pk (Some px) st, OK res) /\
    valid_index (data st) pk px /\
    views (data st) px rs /\
    StronglySorted (row_le pk) rs /\
    (forall r, In r rs <-> In r (data st)) /\
    search_post (JS.index rs) pk vs 0 (Z.of_nat (length rs) - 1) res /\
    (reindex options = false ->
     forall y cached, PX st = Some (y :: cached) -> px = y :: cached).
Proof.
  intros Hpk Npk C Hok Hpre Hn.
  destruct (derivePX_valid st pk options C Hok) as (px & Hpx & Hv & Hcached).
  pose proof (find_indexed st sarg options pk px _ Hpk Hpre Hpx Hn) as Hf.
  destruct (seen_indexed (resolved pk (Some px) st) pk px eq_refl Hv)
    as (rs & Hseen & V & S & Hin).
  destruct (search_ordered (resolved pk (Some px) st) pk rs vs Npk Hseen S)
    as (res & Hres & Hpost).
  - eapply all_complete_views; eauto.
  - apply normalize_length in Hn. rewrite length_map in Hn. exact Hn.
  - exists px, rs, res. rewrite Hf, Hres.
    split; [reflexivity|]. split; [exact Hv|]. split; [exact V|].
    split; [exact S|]. split; [exact Hin|]. split; [exact Hpost|exact Hcached].
Qed.

(** What a successful [find] went through. *)
Lemma find_ok_inv (st st1 : State) (sarg : Sarg) (options : Options)
    (row : Found) :
  find sarg options st = (st1, OK row) ->
  exists pk t,
    derivePK st sarg = OK pk /\ normalize pk sarg = OK t /\
    search st1 pk t = OK row /\
    if presorted options then st1 = resolved pk None st
    else exists px, derivePX (before_derivePX pk options st) = OK px /\
                    st1 = resolved pk (Some px) st.
Proof.
  unfold find, bind, reading, modify, ret, throw, before_derivePX.
  destruct (derivePK st sarg) as [pk|e]; [|discriminate].
  destruct (presorted options).
  - destruct (normalize pk sarg) as [t|e] eqn:Hn; [|discriminate].
    rewrite (normalize_length _ _ _ Hn), Nat.eqb_refl.
    intros H. inversion H. subst st1. exists pk, t. auto.
  - destruct (reindex options).
    + destruct (derivePX _) as [px|e] eqn:Hpx; [|discriminate].
      destruct (normalize pk sarg) as [t|e] eqn:Hn; [|discriminate].
      rewrite (normalize_length _ _ _ Hn), Nat.eqb_refl.
      intros H. inversion H. subst st1. exists pk, t. eauto 6.
    + destruct (derivePX _) as [px|e] eqn:Hpx; [|discriminate].
      destruct (normalize pk sarg) as [t|e] eqn:Hn; [|discriminate].
      rewrite (normalize_length _ _ _ Hn), Nat.eqb_refl.
      intros H. inversion H. subst st1. exists pk, t. eauto 6.
Qed.

Lemma insertRow_ok_inv (st st1 : State) (r : Row) (options : Options) :
  insertRow r options st = (st1, OK true) ->
  exists stf row,
    find (SObj r) options st = (stf, OK row) /\ dataRow row = None /\
    handlesAdd stf = true /\
    st1 = match PX stf with
          | Some px =>
              setPX (Some (JS.splice_insert px (PX_index row)
                             (Z.of_nat (length (data stf)))))
                (appended r stf)
          | None => appended r stf
          end.
Proof.
  unfold insertRow, bind.
  destruct (find (SObj r) options st) as [stf [row|e]]; [|discriminate].
  destruct (dataRow row) as [x|] eqn:Ed; [discriminate|].
  unfold publish, get, modify, ret. cbn [handlesAdd record].
  destruct (handlesAdd stf) eqn:Eh; cbn; [|discriminate].
  intros H. exists stf, row. repeat split; auto.
  destruct (PX stf) as [px|]; cbn in H; inversion H; [|reflexivity].
  unfold appended, getRowCount. cbn. rewrite length_app. cbn.
  do 3 f_equal. lia.
Qed.

Lemma index_ok_valid (pk : list string) (st : State) (px : list Z) :
  PX st = Some px -> valid_index (data st) pk px -> index_ok pk st.
Proof.
  intros H V. unfold index_ok. rewrite H. destruct px; [exact I|exact V].
Qed.

(** A handled [insertRow] of a new key leaves the instance in order. *)
Lemma insertRow_keeps_order (st st1 : State) (r : Row) (options : Options)
    (pk : list string) :
  derivePK st (SObj r) = OK pk -> pk <> [] ->
  all_complete pk (data st) -> index_ok pk st ->
  insertRow r options st = (st1, OK true) ->
  PK st1 = Some pk /\ data st1 = data st ++ [r] /\
  complete pk r = true /\ index_ok pk st1 /\
  (presorted options = false ->
   exists px, PX st1 = Some px /\ valid_index (data st1) pk px).
Proof.
  intros Hpk Npk C Hok Hins.
  apply insertRow_ok_inv in Hins as (stf & row & Hf & Hd & Hh & ->).
  destruct (find_ok_inv _ _ _ _ _ Hf) as (pk' & t & Hpk' & Hn & Hs & Hcase).
  rewrite Hpk in Hpk'. inversion Hpk'; subst pk'. clear Hpk'.
  simpl in Hn. apply sarg_values_tuple in Hn as [-> Hc].
  destruct (complete_tuple _ _ Hc) as [vs Hvs].
  destruct (presorted options) eqn:Hpre.
  - subst stf. cbn. repeat split; auto. discriminate.
  - destruct (find_on_index st (SObj r) options pk vs Hpk Npk C Hok Hpre)
      as (px & rs & res & Hf' & Hv & V & S & Hin & Hpost & _).
    { simpl. rewrite <- Hvs. apply complete_sarg_values. exact Hc. }
    rewrite Hf in Hf'. inversion Hf'; subst stf res. clear Hf'.
    unfold search_post in Hpost. rewrite Hd in Hpost.
    destruct Hpost as (Hb & Hlo & Hhi).
    destruct Hv as [P _].
    pose proof (valid_index_insert (data st) pk px rs r vs (PX_index row)
                  P V S Hvs ltac:(lia) Hlo Hhi) as Hv'.
    split; [reflexivity|]. split; [reflexivity|]. split; [exact Hc|].
    split.
    + eapply index_ok_valid; [reflexivity|exact Hv'].
    + intros _. eexists. split; [reflexivity|exact Hv'].
Qed.

(** [find] returns a stored row holding the searched key whenever one
    exists. *)
Lemma find_existing (st : State) (sarg : Sarg) (options : Options)
    (pk : list string) (vs : list Z) (r : Row) :
  derivePK st sarg = OK pk -> pk <> [] ->
  all_complete pk (data st) -> index_ok pk st ->
  presorted options = false -> normalize pk sarg = OK (map Some vs) ->
  In r (data st) -> tuple pk r = map Some vs ->
  exists px row r',
    find sarg options st = (resolved pk (Some px) st, OK row) /\
    dataRow row = Some r' /\ In r' (data st) /\ tuple pk r' = map Some vs /\
    (reindex options = false ->
     forall y cached, PX st = Some (y :: cached) -> px = y :: cached).
Proof.
  intros Hpk Npk C Hok Hpre Hn Hr Ht.
  destruct (find_on_index st sarg options pk vs Hpk Npk C Hok Hpre Hn)
    as (px & rs & res & Hf & Hv & V & S & Hin & Hpost & Hcached).
  destruct (dataRow res) as [r'|] eqn:Ed.
  - destruct (search_post_hit _ _ _ _ _ Hpost Ed) as [Hi Ht'].
    exists px, res, r'. repeat split; auto.
    apply Hin. eapply index_In; eauto.
  - exfalso. apply (search_post_miss _ _ _ _ r Hpost Ed); [|exact Ht].
    apply Hin. exact Hr.
Qed.


(** X21. On an instance whose rows hold the key columns and whose cached
    index, if any, is in order (a handled [deleteRow] can break that), for
    every row [r] whose key is held by no stored row: once [insertRow(r)]
    has been handled by the row store (the row is appended), [findRow]
    called next with [r]'s key values and without [presorted] returns
    [r]. *)
Theorem insertRow_then_findRow (st st1 : State) (r : Row)
    (options options' : Options) (sarg : Sarg) (pk : list string) :
  derivePK st (SObj r) = OK pk -> pk <> [] ->
  all_complete pk (data st) -> index_ok pk st ->
  (forall r', In r' (data st) -> tuple pk r' <> tuple pk r) ->
  insertRow r options st = (st1, OK true) ->
  normalize pk sarg = OK (tuple pk r) -> presorted options' = false ->
  exists st2, findRow (Some (sarg, options')) st1 = (st2, OK (Some r)).
Proof.
  intros Hpk Npk C Hok Hnew Hins Hn Hpre.
  destruct (insertRow_keeps_order _ _ _ _ _ Hpk Npk C Hok Hins)
    as (Hpk1 & Hdata & Hc & Hok1 & _).
  destruct (complete_tuple _ _ Hc) as [vs Hvs].
  rewrite Hvs in Hn.
  destruct (find_existing st1 sarg options' pk vs r) as
    (px & row & r' & Hf & Hd & Hin & Ht & _); auto.
  - apply derivePK_cached; assumption.
  - rewrite Hdata. apply Forall_app. split; [exact C|].
    constructor; [exact Hc|constructor].
  - rewrite Hdata. apply in_or_app. right. left. reflexivity.
  - unfold findRow, bind, ret. rewrite Hf, Hd.
    eexists. f_equal. f_equal. f_equal.
    rewrite Hdata in Hin. apply in_app_or in Hin as [Hin|[<-|[]]].
    + exfalso. apply (Hnew r' Hin). congruence.
    + reflexivity.
Qed.

(** ** The length check of [find] *)

Lemma rbind_complete {A B} (r : result A) (k : A -> result B) :
  is_incomplete r = false -> (forall a, is_incomplete (k a) = false) ->
  is_incomplete (rbind r k) = false.
Proof. destruct r as [a|e]; simpl; auto. Qed.

Lemma field_complete (row : option Row) (k : string) :
  is_incomplete (field row k) = false.
Proof. destruct row; reflexivity. Qed.

Section SortErrors.
Context {A : Type}.
Variable cmp : A -> A -> result Z.
Hypothesis cmp_complete : forall a b, is_incomplete (cmp a b) = false.

Lemma sort_insert_complete (x : A) (l : list A) :
  is_incomplete (sort_insert cmp x l) = false.
Proof.
  induction l as [|y l IH]; simpl; [reflexivity|].
  apply rbind_complete; [apply cmp_complete|]. intros c.
  destruct (c <=? 0); [reflexivity|].
  apply rbind_complete; [exact IH|reflexivity].
Qed.

Lemma array_sort_complete (l : list A) :
  is_incomplete (array_sort cmp l) = false.
Proof.
  induction l as [|x l IH]; simpl; [reflexivity|].
  apply rbind_complete; [exact IH|]. intros s. apply sort_insert_complete.
Qed.
End SortErrors.

Lemma comparator_complete (st : State) (a b : Z) :
  is_incomplete (comparator st a b) = false.
Proof.
  unfold comparator. destruct (PK st) as [pk|]; [|reflexivity].
  generalize (getRow st a) (getRow st b). intros ra rb.
  induction pk as [|k pk IH]; simpl; [reflexivity|].
  apply rbind_complete; [apply field_complete|]. intros p.
  apply rbind_complete; [apply field_complete|]. intros q.
  destruct (JS.lt p q); [reflexivity|].
  destruct (JS.gt p q); [reflexivity|exact IH].
Qed.

Lemma derivePK_complete (st : State) (sarg : Sarg) :
  is_incomplete (derivePK st sarg) = false.
Proof.
  unfold derivePK.
  assert (is_incomplete
            match sarg with
            | SObj o =>
                rbind (array_sort
                         (fun a b => OK (uniqueValues b - uniqueValues a))
                         (map (candidate st) (keys o)))
                      (fun sorted => OK (map key sorted))
            | SVal _ => Err CannotDerivePK
            end = false) as H.
  { destruct sarg; [|reflexivity].
    apply rbind_complete; [|reflexivity].
    apply array_sort_complete. reflexivity. }
  destruct (PK st) as [[|c pk]|]; auto.
Qed.

Lemma derivePX_complete (st : State) : is_incomplete (derivePX st) = false.
Proof.
  unfold derivePX, rebuildPX.
  destruct (PX st) as [[|y px]|]; try reflexivity;
    apply array_sort_complete, comparator_complete.
Qed.

Section SearchErrors.
Variable getRow : Z -> option Row.

Lemma binSearch_complete (k : string) (v : value) (min max : Z) :
  is_incomplete (binSearch getRow k v min max) = false.
Proof.
  unfold binSearch. generalize (range_size min max). intros n.
  revert min max. induction n as [|n IH]; intros min max; simpl;
    destruct (min <=? max); try reflexivity.
  apply rbind_complete; [apply field_complete|]. intros fld.
  destruct (JS.gt fld v); [apply IH|].
  destruct (JS.lt fld v); [apply IH|reflexivity].
Qed.

Lemma binSearchMin_complete (k : string) (v : value) (min max : Z) :
  is_incomplete (binSearchMin getRow k v min max) = false.
Proof.
  unfold binSearchMin. generalize (range_size min max). intros n.
  revert min max. induction n as [|n IH]; intros min max; simpl;
    destruct (min <=? max); try reflexivity.
  apply rbind_complete; [apply field_complete|]. intros fld.
  destruct (JS.ge fld v); apply IH.
Qed.

Lemma binSearchMax_complete (k : string) (v : value) (min max : Z) :
  is_incomplete (binSearchMax getRow k v min max) = false.
Proof.
  unfold binSearchMax. generalize (range_size min max). intros n.
  revert min max. induction n as [|n IH]; intros min max; simpl;
    destruct (min <=? max); try reflexivity.
  apply rbind_complete; [apply field_complete|]. intros fld.
  destruct (JS.gt fld v); apply IH.
Qed.

Lemma narrow_complete (sarg : list value) (columns : list string)
    (i : nat) (min max : Z) :
  is_incomplete (narrow getRow sarg columns i min max) = false.
Proof.
  revert i min max. induction columns as [|k ks IH]; intros i min max;
    simpl; [reflexivity|].
  apply rbind_complete; [apply binSearchMin_complete|]. intros min'.
  apply rbind_complete; [apply binSearchMax_complete|]. intros m.
  apply IH.
Qed.
End SearchErrors.

Lemma search_complete (st : State) (pk : list string) (sarg : list value) :
  is_incomplete (search st pk sarg) = false.
Proof.
  unfold search. apply rbind_complete; [apply narrow_complete|].
  intros [min max]. apply binSearch_complete.
Qed.

Lemma normalize_complete (pk : list string) (sarg : Sarg) :
  is_incomplete (normalize pk sarg) = false.
Proof.
  destruct sarg as [o|v]; simpl.
  - induction pk as [|k pk IH]; simpl; [reflexivity|].
    destruct (has_key o k); [|reflexivity].
    apply rbind_complete; [exact IH|reflexivity].
  - destruct (length pk =? 1)%nat; reflexivity.
Qed.

(** C9. The 'Expected fully qualified search arg.' branch of [find] is dead:
    whenever normalisation returns a tuple it has as many values as [PK] has
    columns, for an object by [PK.map] and for a primitive by the
    single-column wrap, and no call of [find] ends in that exception. *)
Theorem find_length_check_unreachable (st : State) (sarg : Sarg)
    (options : Options) (pk : list string) :
  match normalize pk sarg with
  | OK t => length t = length pk
  | Err _ => True
  end /\
  is_incomplete (snd (find sarg options st)) = false.
Proof.
  split.
  - destruct (normalize pk sarg) as [t|e] eqn:E; [|exact I].
    eapply normalize_length; eauto.
  - clear pk. unfold find, bind, reading, modify, ret, throw.
    pose proof (derivePK_complete st sarg) as Hpk.
    destruct (derivePK st sarg) as [pk|e]; [clear Hpk|exact Hpk].
    assert (Hn : forall t e, normalize pk sarg = Err e ->
                             is_incomplete (@Err t e) = false).
    { intros t e E. pose proof (normalize_complete pk sarg) as Hc.
      rewrite E in Hc. exact Hc. }
    destruct (presorted options).
    + destruct (normalize pk sarg) as [t|e] eqn:E; [|eapply Hn; eauto].
      rewrite (normalize_length _ _ _ E), Nat.eqb_refl.
      apply search_complete.
    + destruct (reindex options); simpl.
      * pose proof (derivePX_complete (setPX None (setPK (Some pk) st))) as Hpx.
        destruct (derivePX _) as [px|e]; [|exact Hpx].
        destruct (normalize pk sarg) as [t|e] eqn:E; [|eapply Hn; eauto].
        rewrite (normalize_length _ _ _ E), Nat.eqb_refl.
        apply search_complete.
      * pose proof (derivePX_complete (setPK (Some pk) st)) as Hpx.
        destruct (derivePX _) as [px|e]; [|exact Hpx].
        destruct (normalize pk sarg) as [t|e] eqn:E; [|eapply Hn; eauto].
        rewrite (normalize_length _ _ _ E), Nat.eqb_refl.
        apply search_complete.
Qed.

(** ** The key resolver *)

Section ScoreSort.
Context {A : Type}.
Variable score : A -> Z.

(** Sorting never reorders two elements of equal score. *)
Lemma sort_insert_stable (n : Z) (x : A) (l s : list A) :
  sort_insert (fun a b => OK (score b - score a)) x l = OK s ->
  filter (fun a => score a =? n) s = filter (fun a => score a =? n) (x :: l).
Proof.
  revert s. induction l as [|y l IH]; intros s; simpl.
  - intros H. inversion H. reflexivity.
  - destruct (score y - score x <=? 0) eqn:E.
    + intros H. inversion H. reflexivity.
    + apply Z.leb_gt in E.
      destruct (sort_insert (fun a b => OK (score b - score a)) x l)
        as [s'|e]; [|discriminate].
      simpl. intros H. inversion H; subst s. clear H.
      specialize (IH s' eq_refl). simpl in IH |- *. rewrite IH.
      destruct (score x =? n) eqn:Ex; [|reflexivity].
      apply Z.eqb_eq in Ex.
      destruct (score y =? n) eqn:Ey; [apply Z.eqb_eq in Ey; lia|].
      reflexivity.
Qed.

Lemma array_sort_stable (n : Z) (l s : list A) :
  array_sort (fun a b => OK (score b - score a)) l = OK s ->
  filter (fun a => score a =? n) s = filter (fun a => score a =? n) l.
Proof.
  revert s. induction l as [|x l IH]; intros s; simpl.
  - intros H. inversion H. reflexivity.
  - destruct (array_sort (fun a b => OK (score b - score a)) l)
      as [s'|e]; [|discriminate].
    simpl.
    intros H. rewrite (sort_insert_stable n x s' s H). simpl.
    rewrite (IH s' eq_refl). reflexivity.
Qed.

Lemma array_sort_descending (l : list A) :
  exists s,
    array_sort (fun a b => OK (score b - score a)) l = OK s /\
    Permutation l s /\
            StronglySorted (fun a b => score b <= score a) s.
Proof.
  apply (array_sort_spec (fun a b => OK (score b - score a))
           (fun a b => score b <= score a) (fun _ => True)).
  - intros a b _ _. exists (score b - score a).
    split; [reflexivity|]. split; lia.
  - intros a b c _ _ _. lia.
  - apply Forall_forall. auto.
Qed.
End ScoreSort.

Lemma ssorted_map {A B} (f : A -> B) (R : B -> B -> Prop) (l : list A) :
  StronglySorted R (map f l) <-> StronglySorted (fun a b => R (f a) (f b)) l.
Proof.
  induction l as [|x l IH]; simpl; split; intros S; try constructor;
    apply StronglySorted_inv in S as [S F]; try (apply IH; exact S).
  - rewrite Forall_map in F. exact F.
  - rewrite Forall_map. exact F.
Qed.

Lemma filter_map_comm {A B} (f : A -> B) (P : B -> bool) (l : list A) :
  filter P (map f l) = map f (filter (fun a => P (f a)) l).
Proof.
  induction l as [|x l IH]; simpl; [reflexivity|].
  destruct (P (f x)); simpl; rewrite IH; reflexivity.
Qed.

Lemma candidates_are_keys (st : State) (ks : list string) (s : list Candidate) :
  Permutation (map (candidate st) ks) s ->
  forall c, In c s -> c = candidate st (key c).
Proof.
  intros P c Hc.
  apply (Permutation_in _ (Permutation_sym P)) in Hc.
  apply in_map_iff in Hc as (k & <- & _). reflexivity.
Qed.

Lemma candidates_of_keys (st : State) (ks : list string) (s : list Candidate) :
  Permutation (map (candidate st) ks) s ->
  s = map (candidate st) (map key s).
Proof.
  intros P. pose proof (candidates_are_keys st ks s P) as F.
  clear P. induction s as [|c s IH]; simpl; [reflexivity|].
  rewrite <- (F c (or_introl eq_refl)), <- IH; [reflexivity|].
  intros c' Hc'. apply F. right. exact Hc'.
Qed.

(** The score is the number of distinct values of the column over the local
    rows, and [0] without local rows. *)
Lemma selectivity_counts (st : State) (k : string) :
  if local st
  then exists vs,
         NoDup vs /\
         (forall v, In v vs <-> exists r, In r (data st) /\ lookup r k = v) /\
         selectivity st k = Z.of_nat (length vs)
  else selectivity st k = 0.
Proof.
  unfold selectivity, candidate. simpl.
  destruct (local st); [|reflexivity].
  exists (histogram (data st) k). unfold histogram.
  split; [apply NoDup_nodup|]. split; [|reflexivity].
  intros v. rewrite nodup_In, in_map_iff. split.
  - intros (r & <- & Hr). eauto.
  - intros (r & Hr & <-). eauto.
Qed.

(** C8. With no primary key configured or cached, the key derived from an
    object search argument is the argument's own keys, sorted descending by
    selectivity score, columns of equal score keeping the order in which
    the argument lists them; the score counts the distinct values of the
    column over the local rows and is [0] for every column when the
    instance holds no local rows. *)
Theorem derivePK_sorts_by_selectivity (st : State) (o : Row) :
  no_key st = true ->
  exists pk,
    derivePK st (SObj o) = OK pk /\
    Permutation (keys o) pk /\
    StronglySorted (fun a b => selectivity st b <= selectivity st a) pk /\
    (forall n, filter (fun k => selectivity st k =? n) pk =
               filter (fun k => selectivity st k =? n) (keys o)) /\
    (forall k,
        if local st
        then exists vs,
               NoDup vs /\
               (forall v, In v vs <->
                          exists r, In r (data st) /\ lookup r k = v) /\
               selectivity st k = Z.of_nat (length vs)
        else selectivity st k = 0).
Proof.
  intros Hno.
  destruct (array_sort_descending uniqueValues (map (candidate st) (keys o)))
    as (s & Hs & P & S).
  exists (map key s).
  pose proof (candidates_of_keys st (keys o) s P) as Hcand.
  split.
  { unfold derivePK, no_key in *. rewrite Hs. simpl.
    destruct (PK st) as [[|c pk]|]; try reflexivity. discriminate. }
  split.
  { apply (Permutation_map key) in P. rewrite map_map in P. simpl in P.
    rewrite map_id in P. exact P. }
  split.
  { rewrite Hcand in S. apply ssorted_map in S. exact S. }
  split.
  { intros n.
    pose proof (array_sort_stable uniqueValues n _ _ Hs) as Hst.
    rewrite filter_map_comm.
    rewrite (filter_ext_in (fun c => selectivity st (key c) =? n)
                           (fun c => uniqueValues c =? n)).
    2:{ intros c Hc. unfold selectivity.
        rewrite <- (candidates_are_keys st (keys o) s P c Hc). reflexivity. }
    rewrite Hst, filter_map_comm, map_map.
    change (fun x => key (candidate st x)) with (fun x : string => x).
    rewrite map_id. reflexivity. }
  intros k. apply selectivity_counts.
Qed.

(** ** The narrowing phase *)

Section Narrowing.
Variable getRow : Z -> option Row.

Lemma narrow_spec (ks : list string) :
  forall rest vs ws sarg i min max,
    length vs = length ks -> skipn i sarg = map Some (vs ++ ws) ->
    min <= max + 1 ->
    complete_on getRow (ks ++ rest) min max ->
    sorted_on getRow (ks ++ rest) min max ->
    exists min' max',
      narrow getRow sarg ks i min max = OK (min', max') /\
      min <= min' /\ min' <= max' + 1 /\ max' <= max /\
      (forall j r, min <= j <= max -> getRow j = Some r ->
                   (min' <= j <= max' <-> tuple ks r = map Some vs)) /\
      complete_on getRow rest min' max' /\
      sorted_on getRow rest min' max'.
Proof.
  induction ks as [|c ks IH]; intros rest vs ws sarg i min max L Hs Hr C S.
  - destruct vs; [|discriminate]. exists min, max. simpl.
    repeat split; try lia; auto.
  - destruct vs as [|v vs]; [discriminate|].
    simpl in Hs. apply (@skipn_cons_nth value _ _ _ None) in Hs as [Hv Hs].
    pose proof (complete_on_defined _ _ _ _ _ C) as D.
    pose proof (sorted_on_ascending _ _ _ _ _ S) as As.
    cbn [narrow]. rewrite Hv.
    destruct (binSearchMin_spec getRow c v min max Hr D As)
      as (min1 & Hmin & Hbmin & Hlt & Hge).
    rewrite Hmin. simpl.
    assert (D' : defined_on getRow c min1 max)
      by (eapply defined_on_sub; [exact D|lia|lia]).
    assert (As' : ascending_on getRow c min1 max)
      by (eapply ascending_on_sub; [exact As|lia|lia]).
    destruct (binSearchMax_spec getRow c v min1 max ltac:(lia) D' As')
      as (m & Hmax & Hbmax & Hle & Hgt).
    rewrite Hmax. simpl.
    assert (Heq : forall j r, min1 <= j <= m - 1 -> getRow j = Some r ->
                              lookup r c = Some v).
    { intros j r Hj Hrj.
      destruct (D j ltac:(lia)) as (r' & z & Hr' & Hz).
      rewrite Hrj in Hr'. inversion Hr'; subst r'.
      assert (v <= z) by (eapply Hge; eauto; lia).
      assert (z <= v) by (eapply Hle; eauto; lia).
      rewrite Hz. f_equal. lia. }
    destruct (IH rest vs ws sarg (Datatypes.S i) min1 (m - 1))
      as (min' & max' & Hn & B1 & B2 & B3 & Hiff & C' & S').
    + simpl in L. lia.
    + exact Hs.
    + lia.
    + intros j Hj. destruct (C j ltac:(lia)) as (r & Hrj & Hc).
      apply complete_cons in Hc as [_ Hc]. eauto.
    + intros j k rj rk H1 H2 H3 Hrj Hrk.
      specialize (S j k rj rk ltac:(lia) H2 ltac:(lia) Hrj Hrk).
      unfold tuple in S. cbn [app map lex_le] in S.
      rewrite (Heq j rj ltac:(lia) Hrj), (Heq k rk ltac:(lia) Hrk) in S.
      simpl in S. rewrite Z.ltb_irrefl in S. simpl in S. exact S.
    + exists min', max'. split; [exact Hn|].
      split; [lia|]. split; [lia|]. split; [lia|].
      split; [|split; assumption].
      intros j r Hj Hrj.
      change (tuple (c :: ks) r) with (lookup r c :: tuple ks r).
      cbn [map].
      destruct (D j Hj) as (r' & z & Hr' & Hz).
      rewrite Hrj in Hr'. inversion Hr'; subst r'. clear Hr'.
      split.
      * intros Hin. rewrite (Heq j r ltac:(lia) Hrj). f_equal.
        apply (Hiff j r); [lia|exact Hrj|lia].
      * intros Ht. rewrite Hz in Ht. inversion Ht as [[Hc Hks]]. subst z.
        assert (min1 <= j).
        { destruct (Z_lt_ge_dec j min1) as [Lj|Gj]; [|lia].
          assert (v < v) by (eapply Hlt; eauto; lia). lia. }
        assert (j < m).
        { destruct (Z_lt_ge_dec j m) as [Lj|Gj]; [lia|].
          assert (v < v) by (eapply Hgt; eauto; lia). lia. }
        apply (Hiff j r); [lia|exact Hrj|exact Hks].
Qed.
End Narrowing.

Lemma in_order_seen (pk : list string) (st : State) :
  in_order pk st ->
  exists rs, seen_as st rs /\ StronglySorted (row_le pk) rs /\
             (forall r, In r rs <-> In r (data st)).
Proof.
  unfold in_order. destruct (PX st) as [px|] eqn:E; intros H.
  - destruct (seen_indexed st pk px E H) as (rs & Hs & _ & S & Hin). eauto.
  - exists (data st). split; [apply seen_presorted; exact E|].
    split; [exact H|tauto].
Qed.

(** C5. For a primary key of several columns and a search over a correctly
    ordered index or a presorted store, the narrowing phase of [find] ends
    with [min..max] holding exactly the positions whose rows equal the search
    values on every key column but the last, whatever duplicates those
    columns hold, and the search of the last column then runs on that
    range. *)
Theorem narrowing_brackets_the_run (st : State) (pk : list string)
    (vs : list Z) :
  pk <> [] -> length vs = length pk ->
  all_complete pk (data st) -> in_order pk st ->
  exists min max,
    narrow (accessor st) (map Some vs) (firstn (length pk - 1) pk) 0
      0 (getRowCount st - 1) = OK (min, max) /\
    0 <= min /\ min <= max + 1 /\ max <= getRowCount st - 1 /\
    (forall j r, accessor st j = Some r ->
       (min <= j <= max <->
        tuple (firstn (length pk - 1) pk) r =
        map Some (firstn (length pk - 1) vs))) /\
    search st pk (map Some vs) =
    binSearch (accessor st) (nth (length pk - 1) pk "undefined")
      (Some (nth (length pk - 1) vs 0)) min max.
Proof.
  intros Npk L C Hord.
  destruct (in_order_seen pk st Hord) as (rs & [Hget Hlen] & S & Hin).
  assert (Crs : Forall (fun r => complete pk r = true) rs).
  { unfold all_complete in C. rewrite Forall_forall in C |- *.
    intros r Hr. apply C, Hin, Hr. }
  destruct (ordered_of_list (accessor st) pk rs Hget S Crs) as [Co So].
  set (k := (length pk - 1)%nat) in *.
  rewrite <- (firstn_skipn k pk) in Co, So.
  unfold getRowCount. rewrite <- Hlen.
  destruct (narrow_spec (accessor st) (firstn k pk) (skipn k pk)
              (firstn k vs) (skipn k vs) (map Some vs) 0
              0 (Z.of_nat (length rs) - 1))
    as (min & max & Hn & B1 & B2 & B3 & Hiff & _); auto.
  - rewrite !length_firstn. lia.
  - rewrite firstn_skipn. reflexivity.
  - lia.
  - exists min, max. split; [exact Hn|].
    split; [lia|]. split; [lia|]. split; [lia|]. split.
    + intros j r Hr. apply Hiff; [|exact Hr].
      rewrite Hget in Hr. apply index_bounds in Hr. lia.
    + unfold search, getRowCount. rewrite <- Hlen. fold k. rewrite Hn. simpl.
      f_equal. rewrite (nth_indep _ None (Some 0)).
      * apply (map_nth Some).
      * rewrite length_map. destruct pk; [congruence|]. simpl in *. lia.
Qed.

(** ** Inserting a key that exists *)

Lemma tuple_complete (pk : list string) (r : Row) (vs : list Z) :
  tuple pk r = map Some vs -> complete pk r = true.
Proof.
  revert vs. unfold tuple, complete.
  induction pk as [|k pk IH]; intros [|v vs]; simpl; try discriminate;
    [reflexivity|].
  intros H. inversion H as [[Hk Hpk]].
  unfold has_key at 1. rewrite Hk. simpl. eapply IH; eauto.
Qed.

(** C4, as the code has it.  If a stored row holds [r]'s key,
    [insertRow(r)] raises 'Row exists.'; the stored rows, hence the row
    count, are as before and no request has been published.  The rows hold
    the key columns and the lookup sees them in order: with [presorted] the
    store is in key order, otherwise the cached index, if any, is in order.
    The ordered index is the one the preceding lookup resolved: with
    [presorted] none; otherwise an index in order, the very index cached
    before the call when that one is not empty and no [reindex] is asked. *)
Theorem insertRow_existing_key (st : State) (r : Row) (options : Options)
    (pk : list string) :
  derivePK st (SObj r) = OK pk -> pk <> [] ->
  all_complete pk (data st) ->
  (if presorted options then StronglySorted (row_le pk) (data st)
   else index_ok pk st) ->
  (exists r', In r' (data st) /\ tuple pk r' = tuple pk r) ->
  exists st1,
    insertRow r options st = (st1, Err RowExists) /\
    data st1 = data st /\ published st1 = published st /\
    if presorted options then PX st1 = None
    else exists px,
      PX st1 = Some px /\ valid_index (data st) pk px /\
      (reindex options = false ->
       forall y cached, PX st = Some (y :: cached) -> PX st1 = PX st).
Proof.
  intros Hpk Npk C Hord (r' & Hr' & Ht).
  assert (Hc' : complete pk r' = true).
  { unfold all_complete in C. rewrite Forall_forall in C. auto. }
  destruct (complete_tuple _ _ Hc') as [vs Hvs].
  assert (Hc : complete pk r = true).
  { apply (tuple_complete pk r vs). rewrite <- Ht. exact Hvs. }
  assert (Hn : normalize pk (SObj r) = OK (map Some vs)).
  { simpl. rewrite (complete_sarg_values _ _ Hc), <- Ht, Hvs. reflexivity. }
  destruct (presorted options) eqn:Hpre.
  - pose proof (find_presorted st (SObj r) options pk _ Hpk Hpre Hn) as Hf.
    destruct (search_ordered (resolved pk None st) pk (data st) vs Npk
                (seen_presorted (resolved pk None st) eq_refl) Hord C)
      as (res & Hres & Hpost).
    { apply normalize_length in Hn. rewrite length_map in Hn. exact Hn. }
    rewrite Hres in Hf.
    destruct (dataRow res) as [found|] eqn:Ed.
    + exists (resolved pk None st).
      unfold insertRow, bind, throw. rewrite Hf, Ed.
      split; [reflexivity|]. split; [reflexivity|]. split; reflexivity.
    + exfalso. apply (search_post_miss _ _ _ _ r' Hpost Ed); [|exact Hvs].
      exact Hr'.
  - destruct (find_on_index st (SObj r) options pk vs Hpk Npk C Hord Hpre Hn)
      as (px & rs & res & Hf & Hv & V & S & Hin & Hpost & Hcached).
    destruct (dataRow res) as [found|] eqn:Ed.
    + exists (resolved pk (Some px) st).
      unfold insertRow, bind, throw. rewrite Hf, Ed.
      split; [reflexivity|]. split; [reflexivity|]. split; [reflexivity|].
      exists px. split; [reflexivity|]. split; [exact Hv|].
      intros Hre y cached Hpx. rewrite Hpx. simpl. f_equal. eauto.
    + exfalso. apply (search_post_miss _ _ _ _ r' Hpost Ed); [|exact Hvs].
      apply Hin. exact Hr'.
Qed.

(** ** Deleting through the index *)

Lemma views_index (rows : list Row) (px : list Z) (rs : list Row) (i : Z)
    (r : Row) :
  views rows px rs -> JS.index rs i = Some r ->
  exists y, JS.index px i = Some y /\ JS.index rows y = Some r.
Proof.
  intros V Hr. pose proof (views_nth rows px rs i V) as H.
  rewrite Hr in H. destruct (JS.index px i) as [y|]; [eauto|discriminate].
Qed.

(** With an index active, [deleteRow] of an existing key asks the row store
    to delete the physical position of the matched row, and returns that row
    when the request is handled. *)
Lemma deleteRow_indexed (st : State) (sarg : Sarg) (options : Options)
    (pk : list string) (vs : list Z) (r : Row) :
  derivePK st sarg = OK pk -> pk <> [] ->
  all_complete pk (data st) -> index_ok pk st ->
  presorted options = false -> normalize pk sarg = OK (map Some vs) ->
  In r (data st) -> tuple pk r = map Some vs ->
  exists r' y,
    JS.index (data st) y = Some r' /\ tuple pk r' = map Some vs /\
    published (fst (deleteRow sarg options st)) =
      published st ++ [DelRow (Some y)] /\
    snd (deleteRow sarg options st) =
      if handlesDel st then OK (DeletedRow r') else OK NotHandled.
Proof.
  intros Hpk Npk C Hok Hpre Hn Hr Ht.
  destruct (find_on_index st sarg options pk vs Hpk Npk C Hok Hpre Hn)
    as (px & rs & res & Hf & Hv & V & S & Hin & Hpost & _).
  destruct (dataRow res) as [r'|] eqn:Ed.
  - destruct (search_post_hit _ _ _ _ _ Hpost Ed) as [Hi Ht'].
    destruct (views_index _ _ _ _ _ V Hi) as (y & Hy & Hrow).
    exists r', y. split; [exact Hrow|]. split; [exact Ht'|].
    unfold deleteRow, bind, get, throw, publish, modify, ret.
    rewrite Hf, Ed. cbn. rewrite Hy.
    destruct (handlesDel st); cbn; split; reflexivity.
  - exfalso. apply (search_post_miss _ _ _ _ r Hpost Ed); [|exact Ht].
    apply Hin. exact Hr.
Qed.

Lemma find_keeps_cached (st : State) (sarg : Sarg) (options : Options)
    (y : Z) (cached : list Z) :
  presorted options = false -> reindex options = false ->
  PX st = Some (y :: cached) ->
  PX (fst (find sarg options st)) = PX st.
Proof.
  intros Hpre Hre Hpx. unfold find, bind, reading, modify, ret, throw.
  destruct (derivePK st sarg) as [pk|e]; [|reflexivity].
  rewrite Hpre, Hre. unfold derivePX. simpl. rewrite Hpx.
  destruct (normalize pk sarg) as [t|e]; [|reflexivity].
  destruct (length t =? length pk)%nat; reflexivity.
Qed.

(** C7, as the code has it.  In every operation the index is spliced only
    after the delegate reported the storage change handled: when the
    delegate declines or an exception is raised, the index is exactly what
    the lookup of the call resolved, no entry added or removed, and that is
    the index cached before the call whenever that one is not empty and the
    call asks neither [presorted] nor [reindex]. *)
Theorem index_spliced_only_when_handled (op : Op) (options : Options)
    (st : State) :
  op_handled op options st = false ->
  PX (run_op op options st) = PX (fst (find (op_sarg op) options st)) /\
  (presorted options = false -> reindex options = false ->
   forall y cached, PX st = Some (y :: cached) ->
                    PX (run_op op options st) = PX st).
Proof.
  intros Hh.
  assert (H : PX (run_op op options st) =
              PX (fst (find (op_sarg op) options st))).
  { destruct op as [sarg|sarg|r|sarg]; simpl in *.
    - unfold findRow, bind, ret.
      destruct (find sarg options st) as [st1 [row|e]]; reflexivity.
    - unfold findRowIndex, bind, get, ret.
      destruct (find sarg options st) as [st1 [row|e]]; [|reflexivity].
      destruct (PX st1); reflexivity.
    - unfold insertRow, bind, throw, publish, get, modify, ret in *.
      destruct (find (SObj r) options st) as [st1 [row|e]]; [|reflexivity].
      destruct (dataRow row); [reflexivity|].
      cbn [handlesAdd record] in *.
      destruct (handlesAdd st1); cbn in *; [|reflexivity].
      destruct (PX st1) eqn:Epx; cbn in *; try discriminate;
        rewrite ?Epx; reflexivity.
    - unfold deleteRow, bind, throw, publish, get, modify, ret in *.
      destruct (find sarg options st) as [st1 [row|e]]; [|reflexivity].
      destruct (dataRow row); [|reflexivity].
      cbn in *. destruct (PX st1) as [px|] eqn:Epx; cbn in *;
        [|rewrite ?Epx; reflexivity].
      destruct (handlesDel st1); cbn in *; try discriminate;
        rewrite ?Epx; reflexivity. }
  split; [exact H|].
  intros Hpre Hre y cached Hpx. rewrite H.
  eapply find_keeps_cached; eauto.
Qed.

(** ** The [presorted] option *)

(** The rebuild never fails: the identity permutation only names stored
    rows. *)
Lemma rebuildPX_total (st : State) (pk : list string) :
  PK st = Some pk -> exists px, rebuildPX st = OK px.
Proof.
  intros Hpk. unfold rebuildPX.
  destruct (array_sort_spec (comparator st) (fun _ _ => True)
              (fun y => 0 <= y < Z.of_nat (length (data st))))
    with (l := identity (length (data st))) as (px & Hpx & _).
  - intros a b Da Db. unfold comparator, getRow. rewrite Hpk.
    destruct (index_defined (data st) a Da) as [ra Hra].
    destruct (index_defined (data st) b Db) as [rb Hrb].
    rewrite Hra, Hrb.
    destruct (comparator_find_lex pk ra rb) as (c & Hc & _).
    exists c. auto.
  - auto.
  - apply Forall_forall. intros y Hy. apply In_identity. exact Hy.
  - eauto.
Qed.

Lemma find_presorted_state (st : State) (sarg : Sarg) (options : Options)
    (pk : list string) :
  presorted options = true -> derivePK st sarg = OK pk ->
  fst (find sarg options st) = resolved pk None st.
Proof.
  intros Hpre Hpk. unfold find, bind, reading, modify, ret, throw.
  rewrite Hpk, Hpre.
  destruct (normalize pk sarg) as [t|e]; [|reflexivity].
  destruct (length t =? length pk)%nat; reflexivity.
Qed.

Lemma find_rebuilds (st : State) (sarg : Sarg) (options : Options)
    (pk : list string) :
  PX st = None -> presorted options = false -> derivePK st sarg = OK pk ->
  exists px,
    rebuildPX (setPK (Some pk) st) = OK px /\
    PX (fst (find sarg options st)) = Some px.
Proof.
  intros Hpx Hpre Hpk.
  destruct (rebuildPX_total (setPK (Some pk) st) pk eq_refl) as [px Hr].
  exists px. split; [exact Hr|].
  unfold find, bind, reading, modify, ret, throw.
  rewrite Hpk, Hpre.
  assert (Hd : forall stx, stx = setPX None (setPK (Some pk) st) \/
                           stx = setPK (Some pk) st ->
                           derivePX stx = OK px).
  { intros stx [->| ->]; unfold derivePX; simpl; [exact Hr|].
    rewrite Hpx. exact Hr. }
  destruct (reindex options); simpl; rewrite Hd by auto;
    (destruct (normalize pk sarg) as [t|e]; [|reflexivity]);
    destruct (length t =? length pk)%nat; reflexivity.
Qed.

(** C10, as the code has it.  An operation called with [presorted] whose
    key resolution succeeds (a key is cached, or the search argument is an
    object) leaves the instance without a cached index, whether it then
    returns or raises; the next operation without [presorted] whose key
    resolution succeeds therefore rebuilds the index in full. *)
Theorem presorted_discards_cached_index (op : Op) (options : Options)
    (st : State) (pk : list string) :
  presorted options = true -> derivePK st (op_sarg op) = OK pk ->
  PX (run_op op options st) = None /\
  forall sarg' options' pk',
    presorted options' = false ->
    derivePK (run_op op options st) sarg' = OK pk' ->
    exists px,
      rebuildPX (setPK (Some pk') (run_op op options st)) = OK px /\
      PX (fst (find sarg' options' (run_op op options st))) = Some px.
Proof.
  intros Hpre Hpk.
  pose proof (find_presorted_state st (op_sarg op) options pk Hpre Hpk) as Hf.
  assert (H : PX (run_op op options st) = None).
  { destruct op as [sarg|sarg|r|sarg]; simpl in *.
    - unfold findRow, bind, ret.
      destruct (find sarg options st) as [st1 [row|e]]; simpl in *;
        subst st1; reflexivity.
    - unfold findRowIndex, bind, get, ret.
      destruct (find sarg options st) as [st1 [row|e]]; simpl in *;
        subst st1; reflexivity.
    - unfold insertRow, bind, throw, publish, get, modify, ret.
      destruct (find (SObj r) options st) as [st1 [row|e]]; simpl in *;
        subst st1; [|reflexivity].
      destruct (dataRow row); [reflexivity|].
      cbn. destruct (handlesAdd st); reflexivity.
    - unfold deleteRow, bind, throw, publish, get, modify, ret.
      destruct (find sarg options st) as [st1 [row|e]]; simpl in *;
        subst st1; [|reflexivity].
      destruct (dataRow row); reflexivity. }
  split; [exact H|].
  intros sarg' options' pk' Hpre' Hpk'.
  apply find_rebuilds; assumption.
Qed.

Lemma rebuilt_index_valid (st : State) (pk : list string) (px : list Z) :
  PK st = Some pk -> all_complete pk (data st) ->
  rebuildPX st = OK px -> valid_index (data st) pk px.
Proof.
  intros Hpk C H. destruct (rebuildPX_valid st pk Hpk C) as (px' & H' & Hv).
  rewrite H in H'. inversion H'. subst px'. exact Hv.
Qed.

Lemma byId_index_valid :
  valid_index Scenario.rows ["id"] [1; 2; 0].
Proof.
  apply (rebuilt_index_valid Scenario.byId ["id"] [1; 2; 0]).
  - reflexivity.
  - repeat constructor.
  - reflexivity.
Qed.

(** ** The index after a deletion (C1) *)

(** C1. Deleting the row with id 1 from rows with ids 1, 2, 3 removes the
    first physical row and only the entry of the index that pointed to it:
    the index becomes [1; 2] over a store of two rows, so its second entry
    names no row, the stored id 2 is no longer found and a search for id 4
    reads a column of [undefined]. *)
Theorem deleteRow_leaves_stale_positions :
  let out := deleteRow (SVal (Some 1)) no_options Examples.three in
  let st1 := fst out in
  snd out = OK (DeletedRow Examples.r1) /\
  data st1 = [Examples.r2; Examples.r3] /\
  PX st1 = Some [1; 2] /\
  getIndexedRow st1 1 = None /\
  snd (findRow (Some (SVal (Some 2), no_options)) st1) = OK None /\
  snd (findRow (Some (SVal (Some 4), no_options)) st1) = Err TypeError.
Proof. vm_compute. repeat split. Qed.

(** ** The position [findRowIndex] returns on a miss (C2) *)

(** C2. On the scenario rows keyed by "id", [find] computes insertion point
    3 for the absent id 4, but [findRowIndex] reads the index at that point
    and returns [undefined]; for the absent id 0, whose insertion point is 0,
    it returns 1, the physical position of the row with id 1. *)
Theorem findRowIndex_dereferences_insertion_point :
  snd (find (SVal (Some 4)) no_options Scenario.byId) =
    OK {| PX_index := 3; dataRow := None |} /\
  snd (findRowIndex (SVal (Some 4)) no_options Scenario.byId) = OK None /\
  snd (find (SVal (Some 0)) no_options Scenario.byId) =
    OK {| PX_index := 0; dataRow := None |} /\
  snd (findRowIndex (SVal (Some 0)) no_options Scenario.byId) = OK (Some 1).
Proof. vm_compute. repeat split. Qed.

(** ** Inserting after a deletion (C3) *)

(** C3. On rows with ids 10, 30, 20, 40, 50, 60 keyed by "id", the handled
    [deleteRow(10)] leaves the index [2; 1; 3; 4; 5] over the five remaining
    rows.  No stored row has id 25; [insertRow] of the row with id 25 is
    handled, the row is appended at position 5 and the index becomes
    [5; 2; 1; 3; 4; 5]; [findRow(25)] called next returns [undefined]. *)
Theorem insertRow_after_deleteRow_is_not_found :
  let del := deleteRow (SVal (Some 10)) no_options Examples.six in
  let st1 := fst del in
  let ins := insertRow [("id", 25)] no_options st1 in
  let st2 := fst ins in
  snd del = OK (DeletedRow [("id", 10)]) /\
  data st1 = [ [("id", 30)]; [("id", 20)]; [("id", 40)]; [("id", 50)];
               [("id", 60)] ] /\
  PX st1 = Some [2; 1; 3; 4; 5] /\
  snd ins = OK true /\
  data st2 = [ [("id", 30)]; [("id", 20)]; [("id", 40)]; [("id", 50)];
               [("id", 60)]; [("id", 25)] ] /\
  PX st2 = Some [5; 2; 1; 3; 4; 5] /\
  snd (findRow (Some (SVal (Some 25), no_options)) st2) = OK None /\
  snd (findRow (Some (SObj [("id", 25)], no_options)) st2) = OK None.
Proof. vm_compute. repeat split. Qed.

(** ** [deleteRow] without an index (C6) *)

(** C6. With an index the request carries the physical position of the
    matched row: id 1 of the scenario rows sits in slot 1.  With [presorted]
    the index is deleted before [this.PX[row.PX_index]] is read: the call
    raises and publishes nothing. *)
Theorem deleteRow_presorted_raises :
  published (fst (deleteRow (SVal (Some 1)) no_options Scenario.byId)) =
    [DelRow (Some 1)] /\
  snd (deleteRow (SVal (Some 1)) no_options Scenario.byId) =
    OK (DeletedRow [("id", 1); ("name", 97)]) /\
  snd (find (SVal (Some 1)) Examples.presorted_on Examples.three) =
    OK {| PX_index := 0; dataRow := Some Examples.r1 |} /\
  snd (deleteRow (SVal (Some 1)) Examples.presorted_on Examples.three) =
    Err TypeError /\
  published (fst (deleteRow (SVal (Some 1)) Examples.presorted_on
                    Examples.three)) = [].
Proof. vm_compute. repeat split. Qed.

(** ** Where the index does change without a handled request *)

(** On a fresh instance the lookup of a refused duplicate builds the index:
    it is absent before the call and present after it.  With [presorted]
    the refused duplicate discards the index that was cached. *)
Lemma insertRow_existing_key_builds_index :
  PX Scenario.byId = None /\
  snd (insertRow [("id", 2); ("name", 98)] no_options Scenario.byId) =
    Err RowExists /\
  PX (fst (insertRow [("id", 2); ("name", 98)] no_options Scenario.byId)) =
    Some [1; 2; 0] /\
  PX Examples.three_indexed = Some [0; 1; 2] /\
  snd (insertRow Examples.r2 Examples.presorted_on Examples.three_indexed) =
    Err RowExists /\
  PX (fst (insertRow Examples.r2 Examples.presorted_on
             Examples.three_indexed)) = None.
Proof. vm_compute. repeat split. Qed.

(** Where the lookup does not see the rows in order the duplicate is not
    detected: over the index a handled [deleteRow(10)] leaves behind, the
    stored id 20 is inserted again, and so is the stored id 3 with
    [presorted] on the scenario rows, which are not in key order. *)
Lemma insertRow_duplicate_out_of_order :
  let st1 := fst (deleteRow (SVal (Some 10)) no_options Examples.six) in
  In [("id", 20)] (data st1) /\
  snd (insertRow [("id", 20)] no_options st1) = OK true /\
  In [("id", 3); ("name", 99)] (data Scenario.byId) /\
  snd (insertRow [("id", 3); ("name", 99)] Examples.presorted_on
         Scenario.byId) = OK true.
Proof. vm_compute. repeat split; auto. Qed.

(** With [presorted], a declined insert still discards the cached index;
    on a fresh instance a declined insert leaves an index behind. *)
Lemma declined_insertRow_changes_index :
  PX Examples.three_declining = Some [0; 1; 2] /\
  snd (insertRow [("id", 4)] Examples.presorted_on Examples.three_declining) =
    OK false /\
  PX (fst (insertRow [("id", 4)] Examples.presorted_on
             Examples.three_declining)) = None /\
  PX (setPX None Examples.three_declining) = None /\
  snd (insertRow [("id", 4)] no_options
         (setPX None Examples.three_declining)) = OK false /\
  PX (fst (insertRow [("id", 4)] no_options
             (setPX None Examples.three_declining))) = Some [0; 1; 2].
Proof. vm_compute. repeat split. Qed.

(** After [findRow({})] the key is empty and an index is cached; a scalar
    search with [presorted] then fails in key resolution and keeps the
    index, which the next search reuses although a rebuild for its key would
    differ. *)
Lemma presorted_failure_keeps_index :
  let st1 := fst (findRow (Some (SObj [], no_options)) Examples.unkeyed) in
  let st2 :=
    fst (findRow (Some (SVal (Some 5), Examples.presorted_on)) st1) in
  PX st1 = Some [0; 1] /\
  snd (findRow (Some (SVal (Some 5), Examples.presorted_on)) st1) =
    Err CannotDerivePK /\
  PX st2 = Some [0; 1] /\
  PX (fst (find (SObj Examples.r1) no_options st2)) = Some [0; 1] /\
  rebuildPX (setPK (Some ["id"]) st2) = OK [1; 0].
Proof. vm_compute. repeat split. Qed.

(** ** Instances of the theorems *)

Lemma insertRow_then_findRow_witness :
  exists st2,
    findRow (Some (SVal (Some 4), no_options))
      (fst (insertRow [("id", 4); ("name", 100)] no_options
              Examples.byId_indexed)) =
    (st2, OK (Some [("id", 4); ("name", 100)])).
Proof.
  apply (insertRow_then_findRow Examples.byId_indexed _
           [("id", 4); ("name", 100)] no_options no_options
           (SVal (Some 4)) ["id"]).
  - reflexivity.
  - discriminate.
  - repeat constructor.
  - exact byId_index_valid.
  - intros r' [<-|[<-|[<-|[]]]]; discriminate.
  - reflexivity.
  - reflexivity.
  - reflexivity.
Defined.

Lemma insertRow_existing_key_witness :
  (exists st1,
     insertRow [("id", 2); ("name", 0)] no_options Examples.byId_indexed =
       (st1, Err RowExists) /\
     data st1 = Scenario.rows /\ published st1 = [] /\
     exists px,
       PX st1 = Some px /\ valid_index Scenario.rows ["id"] px /\
       (reindex no_options = false ->
        forall y cached, PX Examples.byId_indexed = Some (y :: cached) ->
                         PX st1 = PX Examples.byId_indexed)) /\
  (exists st1,
     insertRow Examples.r2 Examples.presorted_on Examples.three_indexed =
       (st1, Err RowExists) /\
     data st1 = [Examples.r1; Examples.r2; Examples.r3] /\
     published st1 = [] /\ PX st1 = None).
Proof.
  split.
  - apply (insertRow_existing_key Examples.byId_indexed
             [("id", 2); ("name", 0)] no_options ["id"]).
    + reflexivity.
    + discriminate.
    + repeat constructor.
    + exact byId_index_valid.
    + exists [("id", 2); ("name", 98)]. split; [simpl; auto|reflexivity].
  - apply (insertRow_existing_key Examples.three_indexed Examples.r2
             Examples.presorted_on ["id"]).
    + reflexivity.
    + discriminate.
    + repeat constructor.
    + repeat constructor.
    + exists Examples.r2. split; [simpl; auto|reflexivity].
Defined.

Lemma narrowing_brackets_the_run_witness :
  exists min max,
    narrow (accessor Examples.byDept) [Some 2; Some 2] ["dept"] 0
      0 (getRowCount Examples.byDept - 1) = OK (min, max) /\
    0 <= min /\ min <= max + 1 /\ max <= getRowCount Examples.byDept - 1 /\
    (forall j r, accessor Examples.byDept j = Some r ->
       (min <= j <= max <-> tuple ["dept"] r = [Some 2])) /\
    search Examples.byDept ["dept"; "id"] [Some 2; Some 2] =
    binSearch (accessor Examples.byDept) "id" (Some 2) min max.
Proof.
  apply (narrowing_brackets_the_run Examples.byDept ["dept"; "id"] [2; 2]).
  - discriminate.
  - reflexivity.
  - repeat constructor.
  - unfold in_order. simpl. repeat constructor.
Defined.

Lemma index_spliced_only_when_handled_witness :
  PX (run_op (OpInsertRow [("id", 4)]) no_options Examples.three_declining) =
  PX (fst (find (SObj [("id", 4)]) no_options Examples.three_declining)) /\
  (presorted no_options = false -> reindex no_options = false ->
   forall y cached,
     PX Examples.three_declining = Some (y :: cached) ->
     PX (run_op (OpInsertRow [("id", 4)]) no_options
           Examples.three_declining) = PX Examples.three_declining).
Proof.
  apply (index_spliced_only_when_handled (OpInsertRow [("id", 4)])
           no_options Examples.three_declining).
  reflexivity.
Defined.

Lemma derivePK_sorts_by_selectivity_witness :
  let st := Scenario.fresh None Examples.staff in
  let o : Row := [("id", 2); ("name", 7); ("dept", 2)] in
  exists pk,
    derivePK st (SObj o) = OK pk /\
    Permutation (keys o) pk /\
    StronglySorted (fun a b => selectivity st b <= selectivity st a) pk /\
    (forall n, filter (fun k => selectivity st k =? n) pk =
               filter (fun k => selectivity st k =? n) (keys o)) /\
    (forall k,
        if local st
        then exists vs,
               NoDup vs /\
               (forall v, In v vs <->
                          exists r, In r (data st) /\ lookup r k = v) /\
               selectivity st k = Z.of_nat (length vs)
        else selectivity st k = 0).
Proof.
  apply (derivePK_sorts_by_selectivity (Scenario.fresh None Examples.staff)
           [("id", 2); ("name", 7); ("dept", 2)]).
  reflexivity.
Defined.

Lemma presorted_discards_cached_index_witness :
  PX (run_op (OpFindRow (SVal (Some 2))) Examples.presorted_on
        Examples.three_indexed) = None /\
  forall sarg' options' pk',
    presorted options' = false ->
    derivePK (run_op (OpFindRow (SVal (Some 2))) Examples.presorted_on
                Examples.three_indexed) sarg' = OK pk' ->
    exists px,
      rebuildPX (setPK (Some pk')
                   (run_op (OpFindRow (SVal (Some 2))) Examples.presorted_on
                      Examples.three_indexed)) = OK px /\
      PX (fst (find sarg' options'
                 (run_op (OpFindRow (SVal (Some 2))) Examples.presorted_on
                    Examples.three_indexed))) = Some px.
Proof.
  apply (presorted_discards_cached_index (OpFindRow (SVal (Some 2)))
           Examples.presorted_on Examples.three_indexed ["id"]).
  - reflexivity.
  - reflexivity.
Defined.

(** * Further properties of the operations *)

(** ** The cached key *)

Lemma find_sets_PK (st : State) (sarg : Sarg) (options : Options)
    (pk : list string) :
  derivePK st sarg = OK pk -> PK (fst (find sarg options st)) = Some pk.
Proof.
  intros Hpk. unfold find, bind, reading, modify, ret, throw. rewrite Hpk.
  destruct (presorted options).
  - destruct (normalize pk sarg) as [t|e]; [|reflexivity].
    destruct (length t =? length pk)%nat; reflexivity.
  - destruct (reindex options); simpl;
      (destruct (derivePX _) as [px|e]; [|reflexivity]);
      (destruct (normalize pk sarg) as [t|e]; [|reflexivity]);
      destruct (length t =? length pk)%nat; reflexivity.
Qed.

Lemma run_op_PK (op : Op) (options : Options) (st : State) :
  PK (run_op op options st) = PK (fst (find (op_sarg op) options st)).
Proof.
  destruct op as [sarg|sarg|r|sarg]; simpl.
  - unfold findRow, bind, ret.
    destruct (find sarg options st) as [st1 [row|e]]; reflexivity.
  - unfold findRowIndex, bind, get, ret.
    destruct (find sarg options st) as [st1 [row|e]]; [|reflexivity].
    destruct (PX st1); reflexivity.
  - unfold insertRow, bind, throw, publish, get, modify, ret.
    destruct (find (SObj r) options st) as [st1 [row|e]]; [|reflexivity].
    destruct (dataRow row); [reflexivity|].
    cbn [handlesAdd record].
    destruct (handlesAdd st1); cbn; [|reflexivity].
    destruct (PX st1); reflexivity.
  - unfold deleteRow, bind, throw, publish, get, modify, ret.
    destruct (find sarg options st) as [st1 [row|e]]; [|reflexivity].
    destruct (dataRow row); [|reflexivity].
    cbn. destruct (PX st1); cbn; [|reflexivity].
    destruct (handlesDel st1); reflexivity.
Qed.

(** X1. The key an operation resolves is cached in [this.PK], whether the
    operation then returns or raises; once it has a column it is the key of
    every later search, whatever the shape of the search argument. *)
Theorem resolved_key_is_cached (op : Op) (options : Options) (st : State)
    (pk : list string) :
  derivePK st (op_sarg op) = OK pk ->
  PK (run_op op options st) = Some pk /\
  (pk <> [] ->
   forall sarg', derivePK (run_op op options st) sarg' = OK pk).
Proof.
  intros Hpk.
  assert (H : PK (run_op op options st) = Some pk).
  { rewrite run_op_PK. apply find_sets_PK. exact Hpk. }
  split; [exact H|].
  intros N sarg'. apply derivePK_cached; assumption.
Qed.

(** ** The exceptions of [find] *)

Lemma derivePX_total (st : State) (pk : list string) :
  PK st = Some pk -> exists px, derivePX st = OK px.
Proof.
  intros Hpk. unfold derivePX.
  destruct (PX st) as [[|y px]|]; eauto using rebuildPX_total.
Qed.


(** What [find] returns when normalisation raises. *)
Lemma find_normalize_error (st : State) (sarg : Sarg) (options : Options)
    (pk : list string) (e : Error) :
  derivePK st sarg = OK pk -> normalize pk sarg = Err e ->
  snd (find sarg options st) = Err e.
Proof.
  intros Hpk Hn. unfold find, bind, reading, modify, ret, throw.
  rewrite Hpk, Hn. destruct (presorted options); [reflexivity|].
  destruct (reindex options); simpl.
  - destruct (derivePX_total (setPX None (setPK (Some pk) st)) pk eq_refl)
      as [px Hpx].
    rewrite Hpx. reflexivity.
  - destruct (derivePX_total (setPK (Some pk) st) pk eq_refl) as [px Hpx].
    rewrite Hpx. reflexivity.
Qed.


(** X3. A primitive search argument is refused unless the key has exactly
    one column.  Without a usable key [find] raises 'Cannot derive primary
    key' and leaves the instance exactly as it was; with a key of several
    columns it raises 'Expected search arg to be an object ...'.  Neither
    touches the row store or publishes a request. *)
Theorem find_refuses_primitive_argument (st : State) (v : value)
    (options : Options) :
  (forall c, PK st <> Some [c]) ->
  snd (find (SVal v) options st) =
    Err (if no_key st then CannotDerivePK else ExpectedObject) /\
  (no_key st = true -> fst (find (SVal v) options st) = st) /\
  data (fst (find (SVal v) options st)) = data st /\
  published (fst (find (SVal v) options st)) = published st.
Proof.
  intros Hone.
  assert (Hfr : data (fst (find (SVal v) options st)) = data st /\
                published (fst (find (SVal v) options st)) = published st).
  { destruct (find (SVal v) options st) as [st1 res] eqn:Hf.
    destruct (find_frame _ _ _ _ _ Hf) as (Hd & Hp & _). auto. }
  unfold no_key.
  destruct (PK st) as [[|c [|c' pk]]|] eqn:Hpk.
  - split; [|split; [intros _|exact Hfr]];
      unfold find, bind, reading, derivePK; rewrite Hpk; reflexivity.
  - exfalso. apply (Hone c). reflexivity.
  - split; [|split; [discriminate|exact Hfr]].
    apply (find_normalize_error st (SVal v) options (c :: c' :: pk)).
    + unfold derivePK. rewrite Hpk. reflexivity.
    + reflexivity.
  - split; [|split; [intros _|exact Hfr]];
      unfold find, bind, reading, derivePK; rewrite Hpk; reflexivity.
Qed.

(** X4. With a key of one column, searching for a primitive is searching
    for the object that holds it in that column. *)
Theorem find_primitive_is_one_column_object (st : State) (c : string)
    (z : Z) (options : Options) :
  PK st = Some [c] ->
  find (SVal (Some z)) options st = find (SObj [(c, z)]) options st.
Proof.
  intros Hpk. unfold find, bind, reading, modify, ret, throw, derivePK.
  rewrite Hpk. simpl. unfold has_key. simpl. rewrite String.eqb_refl.
  reflexivity.
Qed.

(** ** Lookups *)

(** X5. On an instance whose rows hold the key columns and whose cached
    index, if any, is in order, [findRow] without [presorted] returns a
    stored row holding the searched key when one exists and [undefined]
    exactly when none does; it changes neither the rows nor the published
    requests. *)
Theorem findRow_finds_exactly (st : State) (sarg : Sarg) (options : Options)
    (pk : list string) (vs : list Z) :
  derivePK st sarg = OK pk -> pk <> [] ->
  all_complete pk (data st) -> index_ok pk st ->
  presorted options = false -> normalize pk sarg = OK (map Some vs) ->
  exists st1 res,
    findRow (Some (sarg, options)) st = (st1, OK res) /\
    data st1 = data st /\ published st1 = published st /\
    match res with
    | Some r => In r (data st) /\ tuple pk r = map Some vs
    | None => forall r, In r (data st) -> tuple pk r <> map Some vs
    end.
Proof.
  intros Hpk Npk C Hok Hpre Hn.
  destruct (find_on_index st sarg options pk vs Hpk Npk C Hok Hpre Hn)
    as (px & rs & res & Hf & Hv & V & S & Hin & Hpost & _).
  exists (resolved pk (Some px) st), (dataRow res).
  unfold findRow, bind, ret. rewrite Hf.
  split; [reflexivity|]. split; [reflexivity|]. split; [reflexivity|].
  destruct (dataRow res) as [r|] eqn:Ed.
  - destruct (search_post_hit _ _ _ _ _ Hpost Ed) as [Hi Ht].
    split; [|exact Ht]. apply Hin. eapply index_In; eauto.
  - intros r Hr. apply (search_post_miss _ _ _ _ r Hpost Ed).
    apply Hin. exact Hr.
Qed.

(** X6. On an instance whose rows hold the key columns and whose cached
    index, if any, is in order (a handled [deleteRow] can break that),
    [findRowIndex] without [presorted] of a key some stored row holds
    returns a position of the row store at which a row with that key is
    stored. *)
Theorem findRowIndex_of_stored_key (st : State) (sarg : Sarg)
    (options : Options) (pk : list string) (vs : list Z) (r : Row) :
  derivePK st sarg = OK pk -> pk <> [] ->
  all_complete pk (data st) -> index_ok pk st ->
  presorted options = false -> normalize pk sarg = OK (map Some vs) ->
  In r (data st) -> tuple pk r = map Some vs ->
  exists st1 y r',
    findRowIndex sarg options st = (st1, OK (Some y)) /\
    getRow st y = Some r' /\ tuple pk r' = map Some vs.
Proof.
  intros Hpk Npk C Hok Hpre Hn Hr Ht.
  destruct (find_on_index st sarg options pk vs Hpk Npk C Hok Hpre Hn)
    as (px & rs & res & Hf & Hv & V & S & Hin & Hpost & _).
  destruct (dataRow res) as [r'|] eqn:Ed.
  - destruct (search_post_hit _ _ _ _ _ Hpost Ed) as [Hi Ht'].
    destruct (views_index _ _ _ _ _ V Hi) as (y & Hy & Hrow).
    exists (resolved pk (Some px) st), y, r'.
    unfold findRowIndex, bind, get, ret. rewrite Hf. cbn. rewrite Hy.
    auto.
  - exfalso. apply (search_post_miss _ _ _ _ r Hpost Ed); [|exact Ht].
    apply Hin. exact Hr.
Qed.

(** X7. With [presorted] on a store that is in key order, [findRowIndex]
    returns the position of a row holding the key, or, when no row holds it,
    the insertion point: every row before it has a smaller key and every row
    from it on a greater one. *)
Theorem findRowIndex_presorted (st : State) (sarg : Sarg) (options : Options)
    (pk : list string) (vs : list Z) :
  derivePK st sarg = OK pk -> pk <> [] ->
  all_complete pk (data st) -> StronglySorted (row_le pk) (data st) ->
  presorted options = true -> normalize pk sarg = OK (map Some vs) ->
  exists st1 p,
    findRowIndex sarg options st = (st1, OK (Some p)) /\
    0 <= p <= getRowCount st /\
    ((exists r, getRow st p = Some r /\ tuple pk r = map Some vs) \/
     (forall i r, getRow st i = Some r ->
        (i < p -> lex_lt (tuple pk r) (map Some vs) = true) /\
        (p <= i -> lex_lt (map Some vs) (tuple pk r) = true))).
Proof.
  intros Hpk Npk C S Hpre Hn.
  pose proof (find_presorted st sarg options pk _ Hpk Hpre Hn) as Hf.
  destruct (search_ordered (resolved pk None st) pk (data st) vs Npk
              (seen_presorted (resolved pk None st) eq_refl) S C)
    as (res & Hres & Hpost).
  { apply normalize_length in Hn. rewrite length_map in Hn. exact Hn. }
  exists (resolved pk None st), (PX_index res).
  unfold findRowIndex, bind, get, ret. rewrite Hf, Hres. cbn.
  split; [reflexivity|].
  unfold search_post in Hpost. unfold getRowCount, getRow.
  destruct (dataRow res) as [r|].
  - destruct Hpost as (Hb & Hg & Ht). split; [lia|]. left. eauto.
  - destruct Hpost as (Hb & Hlo & Hhi). split; [lia|]. right.
    intros i r Hr. pose proof (index_bounds _ _ _ Hr). split; intros Hi.
    + apply (Hlo i r); [lia|exact Hr].
    + apply (Hhi i r); [lia|exact Hr].
Qed.

(** ** Rebuilding the index *)

Lemma find_PX_after (st : State) (sarg : Sarg) (options : Options)
    (pk : list string) (px : list Z) :
  derivePK st sarg = OK pk -> presorted options = false ->
  derivePX (before_derivePX pk options st) = OK px ->
  PX (fst (find sarg options st)) = Some px.
Proof.
  intros Hpk Hpre Hpx. unfold find, bind, reading, modify, ret, throw.
  rewrite Hpk, Hpre. unfold before_derivePX in Hpx.
  destruct (reindex options); rewrite Hpx;
    (destruct (normalize pk sarg) as [t|e]; [|reflexivity]);
    destruct (length t =? length pk)%nat; reflexivity.
Qed.

(** X8. A search with [reindex], or one that finds no cached entries,
    leaves a rebuilt index that is a permutation of the row positions in
    ascending key order, whatever [this.PX] held before, be it stale or
    corrupted, and even if the search then raises. *)
Theorem find_rebuild_restores_order (st : State) (sarg : Sarg)
    (options : Options) (pk : list string) :
  derivePK st sarg = OK pk -> all_complete pk (data st) ->
  presorted options = false ->
  reindex options = true \/ PX st = None \/ PX st = Some [] ->
  exists px,
    PX (fst (find sarg options st)) = Some px /\
    rebuildPX (setPK (Some pk) st) = OK px /\
    valid_index (data st) pk px.
Proof.
  intros Hpk C Hpre Hcase.
  destruct (rebuildPX_valid (setPK (Some pk) st) pk eq_refl C)
    as (px & Hr & Hv).
  exists px. split; [|split; [exact Hr|exact Hv]].
  apply (find_PX_after st sarg options pk px Hpk Hpre).
  unfold before_derivePX, derivePX.
  destruct (reindex options) eqn:Hre; simpl; [exact Hr|].
  destruct Hcase as [Hc|[Hc|Hc]]; [discriminate| |]; rewrite Hc; exact Hr.
Qed.

(** ** What the mutations do to the row store *)

(** X9. [insertRow] publishes at most one request and appends at most the
    given row: it returns [true] exactly when a data source handled
    'add-row', the store then being the old rows followed by the row; it
    returns [false] when the request went unanswered, the rows unchanged;
    and when it raises, nothing was published and no row was stored. *)
Theorem insertRow_outcomes (st : State) (r : Row) (options : Options) :
  let out := insertRow r options st in
  match snd out with
  | OK true =>
      handlesAdd st = true /\ data (fst out) = data st ++ [r] /\
      published (fst out) = published st ++ [AddRow r]
  | OK false =>
      handlesAdd st = false /\ data (fst out) = data st /\
      published (fst out) = published st ++ [AddRow r]
  | Err _ =>
      data (fst out) = data st /\ published (fst out) = published st
  end.
Proof.
  unfold insertRow, bind, throw, publish, get, modify, ret.
  destruct (find (SObj r) options st) as [st1 [row|e]] eqn:Hf;
    destruct (find_frame _ _ _ _ _ Hf) as (Hd & Hp & _ & Ha & _);
    [|simpl; auto].
  destruct (dataRow row); [simpl; auto|].
  cbn [handlesAdd record]. rewrite Ha.
  destruct (handlesAdd st); cbn.
  - destruct (PX st1); cbn; rewrite Hd, Hp; auto.
  - rewrite Hd, Hp. auto.
Qed.

(** X10. [deleteRow] publishes at most one request: it returns the matched
    row exactly when a data source handled 'del-row', the store then having
    lost the row at the requested position; it returns [false] when the
    request went unanswered and [undefined] when nothing matched, the rows
    unchanged in both cases; and when it raises, nothing was published and
    no row was removed. *)
Theorem deleteRow_outcomes (st : State) (sarg : Sarg) (options : Options) :
  let out := deleteRow sarg options st in
  match snd out with
  | OK (DeletedRow r) =>
      handlesDel st = true /\
      (exists row, snd (find sarg options st) = OK row /\
                   dataRow row = Some r) /\
      exists y, published (fst out) = published st ++ [DelRow y] /\
                data (fst out) = store_delete (data st) y
  | OK NotHandled =>
      handlesDel st = false /\ data (fst out) = data st /\
      exists y, published (fst out) = published st ++ [DelRow y]
  | OK NotFound | Err _ =>
      data (fst out) = data st /\ published (fst out) = published st
  end.
Proof.
  unfold deleteRow, bind, throw, publish, get, modify, ret.
  destruct (find sarg options st) as [st1 [row|e]] eqn:Hf;
    destruct (find_frame _ _ _ _ _ Hf) as (Hd & Hp & _ & _ & Hh);
    [|simpl; auto].
  destruct (dataRow row) as [r|] eqn:Ed; [|simpl; auto].
  destruct (PX st1) as [px|]; [|simpl; auto].
  cbn [handlesDel record]. rewrite Hh.
  destruct (handlesDel st); cbn; rewrite Hd, Hp.
  - split; [reflexivity|]. split; [eauto|]. eauto.
  - split; [reflexivity|]. split; [reflexivity|]. eauto.
Qed.

(** ** The index after an insertion *)

(** X11. A handled [insertRow] without [presorted] keeps the invariant of
    the index: afterwards [this.PX] is a permutation of the positions of the
    grown row store whose rows ascend in key order, the position of the
    appended row spliced in at its insertion point. *)
Theorem insertRow_keeps_index_valid (st st1 : State) (r : Row)
    (options : Options) (pk : list string) :
  derivePK st (SObj r) = OK pk -> pk <> [] ->
  all_complete pk (data st) -> index_ok pk st ->
  presorted options = false ->
  insertRow r options st = (st1, OK true) ->
  exists px,
    PX st1 = Some px /\ valid_index (data st ++ [r]) pk px /\
    In (getRowCount st) px /\ length px = S (length (data st)).
Proof.
  intros Hpk Npk C Hok Hpre Hins.
  destruct (insertRow_keeps_order _ _ _ _ _ Hpk Npk C Hok Hins)
    as (_ & Hdata & _ & _ & Hpx).
  destruct (Hpx Hpre) as (px & Hpx1 & Hv). rewrite Hdata in Hv.
  exists px. split; [exact Hpx1|]. split; [exact Hv|].
  destruct Hv as [P _]. rewrite length_app in P. simpl in P.
  split.
  - eapply Permutation_in; [apply Permutation_sym; exact P|].
    apply In_identity. unfold getRowCount. lia.
  - rewrite (Permutation_length P), length_identity. lia.
Qed.

(** X12. On an instance whose rows hold the key columns and whose cached
    index, if any, is in order (a handled [deleteRow] can break that): after
    a handled [insertRow] of a row whose key no stored row held,
    [findRowIndex] with the key and without [presorted] returns the position
    the row was appended at, the former row count. *)
Theorem insertRow_then_findRowIndex (st st1 : State) (r : Row)
    (options options' : Options) (sarg : Sarg) (pk : list string) :
  derivePK st (SObj r) = OK pk -> pk <> [] ->
  all_complete pk (data st) -> index_ok pk st ->
  (forall r', In r' (data st) -> tuple pk r' <> tuple pk r) ->
  insertRow r options st = (st1, OK true) ->
  normalize pk sarg = OK (tuple pk r) -> presorted options' = false ->
  exists st2,
    findRowIndex sarg options' st1 = (st2, OK (Some (getRowCount st))).
Proof.
  intros Hpk Npk C Hok Hnew Hins Hn Hpre.
  destruct (insertRow_keeps_order _ _ _ _ _ Hpk Npk C Hok Hins)
    as (Hpk1 & Hdata & Hc & Hok1 & _).
  destruct (complete_tuple _ _ Hc) as [vs Hvs].
  rewrite Hvs in Hn.
  assert (C1 : all_complete pk (data st1)).
  { rewrite Hdata. apply Forall_app. split; [exact C|].
    constructor; [exact Hc|constructor]. }
  destruct (find_on_index st1 sarg options' pk vs
              (derivePK_cached _ _ _ Hpk1 Npk) Npk C1 Hok1 Hpre Hn)
    as (px & rs & res & Hf & Hv & V & S & Hin & Hpost & _).
  destruct (dataRow res) as [r'|] eqn:Ed.
  - destruct (search_post_hit _ _ _ _ _ Hpost Ed) as [Hi Ht].
    destruct (views_index _ _ _ _ _ V Hi) as (y & Hy & Hrow).
    exists (resolved pk (Some px) st1).
    unfold findRowIndex, bind, get, ret. rewrite Hf. cbn. rewrite Hy.
    do 3 f_equal. unfold getRowCount.
    rewrite Hdata in Hrow.
    pose proof (index_bounds _ _ _ Hrow) as B.
    rewrite length_app in B. simpl in B.
    destruct (Z_lt_ge_dec y (Z.of_nat (length (data st)))) as [L|G]; [|lia].
    exfalso. destruct (index_defined (data st) y ltac:(lia)) as [r0 Hr0].
    pose proof (index_app_old _ r _ _ Hr0) as Hr0'.
    same_row Hr0' Hrow.
    apply (Hnew r'); [eapply index_In; eauto|]. rewrite Ht. symmetry. exact Hvs.
  - exfalso. apply (search_post_miss _ _ _ _ r Hpost Ed); [|exact Hvs].
    apply Hin. rewrite Hdata. apply in_or_app. right. left. reflexivity.
Qed.

(** ** The index after a deletion *)






(** ** Searching again after a deletion *)





(** ** The empty store *)

Lemma narrow_empty (getRow : Z -> option Row) (sarg : list value)
    (columns : list string) (i : nat) :
  narrow getRow sarg columns i 0 (-1) = OK (0, -1).
Proof.
  revert i. induction columns as [|k ks IH]; intros i; cbn [narrow];
    [reflexivity|].
  rewrite binSearchMin_eq. change (0 <=? -1) with false. cbn [rbind].
  rewrite binSearchMax_eq. change (0 <=? -1) with false. cbn [rbind].
  apply IH.
Qed.

Lemma search_empty (st : State) (pk : list string) (sarg : list value) :
  data st = [] ->
  search st pk sarg = OK {| PX_index := 0; dataRow := None |}.
Proof.
  intros H. unfold search, getRowCount. rewrite H.
  change (Z.of_nat (length (@nil Row)) - 1) with (-1).
  rewrite narrow_empty. cbn [rbind]. rewrite binSearch_eq. reflexivity.
Qed.

(** X15. On an empty row store the search [insertRow] starts with is a miss
    with insertion point 0, whatever the key, and a handled [insertRow]
    stores the row as the only row, leaving the one-entry index [0] (no
    index with [presorted]). *)
Theorem insertRow_into_empty_store (st : State) (r : Row) (options : Options)
    (pk : list string) :
  data st = [] -> index_ok pk st -> handlesAdd st = true ->
  derivePK st (SObj r) = OK pk -> complete pk r = true ->
  snd (find (SObj r) options st) = OK {| PX_index := 0; dataRow := None |} /\
  exists st1,
    insertRow r options st = (st1, OK true) /\
    data st1 = [r] /\ PK st1 = Some pk /\
    PX st1 = if presorted options then None else Some [0].
Proof.
  intros Hd Hok Hh Hpk Hc.
  pose proof (complete_sarg_values _ _ Hc) as Hn.
  assert (Hpx : derivePX (before_derivePX pk options st) = OK []).
  { unfold before_derivePX, derivePX, rebuildPX, index_ok in *.
    destruct (reindex options); simpl; rewrite ?Hd; [reflexivity|].
    destruct (PX st) as [[|y px]|]; try reflexivity.
    rewrite Hd in Hok. destruct Hok as [P _].
    apply Permutation_sym, Permutation_nil in P. discriminate. }
  destruct (presorted options) eqn:Hpre.
  - pose proof (find_presorted st (SObj r) options pk _ Hpk Hpre Hn) as Hf.
    rewrite search_empty in Hf by exact Hd.
    split; [rewrite Hf; reflexivity|].
    eexists. unfold insertRow, bind, throw, publish, get, modify, ret.
    rewrite Hf. cbn. rewrite Hh. cbn. rewrite Hd. auto.
  - pose proof (find_indexed st (SObj r) options pk [] _ Hpk Hpre Hpx Hn)
      as Hf.
    rewrite search_empty in Hf by exact Hd.
    split; [rewrite Hf; reflexivity|].
    eexists. unfold insertRow, bind, throw, publish, get, modify, ret.
    rewrite Hf. cbn. rewrite Hh. cbn. rewrite Hd. auto.
Qed.

(** ** The comparator of the index *)

Lemma fields_tuple (r : Row) (pk : list string) :
  fields (Some r) pk = OK (tuple pk r).
Proof.
  induction pk as [|k pk IH]; simpl; [reflexivity|].
  rewrite IH. reflexivity.
Qed.

Lemma comparator_find_sym (ra rb : Row) (pk : list string) (c : Z) :
  comparator_find (Some ra) (Some rb) pk = OK c ->
  comparator_find (Some rb) (Some ra) pk = OK (- c) /\ -1 <= c <= 1.
Proof.
  revert c. induction pk as [|k pk IH]; simpl; intros c H.
  - inversion H. split; [reflexivity|lia].
  - destruct (lookup ra k) as [x|], (lookup rb k) as [y|]; simpl in *;
      try (apply IH; exact H).
    destruct (x <? y) eqn:E1, (y <? x) eqn:E2; simpl in *;
      try (inversion H; subst; split; [reflexivity|lia]);
      try (apply IH; exact H).
    apply Z.ltb_lt in E1, E2. lia.
Qed.

Lemma comparator_find_zero (ra rb : Row) (pk : list string) (c : Z) :
  complete pk ra = true -> complete pk rb = true ->
  comparator_find (Some ra) (Some rb) pk = OK c ->
  (c = 0 <-> tuple pk ra = tuple pk rb).
Proof.
  revert c. induction pk as [|k pk IH]; intros c Ca Cb H.
  - simpl in H. inversion H. split; reflexivity.
  - apply complete_cons in Ca as [[x Hx] Ca].
    apply complete_cons in Cb as [[y Hy] Cb].
    change (tuple (k :: pk) ra) with (lookup ra k :: tuple pk ra).
    change (tuple (k :: pk) rb) with (lookup rb k :: tuple pk rb).
    simpl in H. rewrite Hx, Hy in *. simpl in H.
    destruct (x <? y) eqn:E1; simpl in H.
    + apply Z.ltb_lt in E1. inversion H. split; [lia|].
      intros E. inversion E. lia.
    + destruct (y <? x) eqn:E2; simpl in H.
      * apply Z.ltb_lt in E2. inversion H. split; [lia|].
        intros E. inversion E. lia.
      * apply Z.ltb_ge in E1, E2. assert (x = y) by lia. subst y.
        rewrite (IH c Ca Cb H). split; [intros ->; reflexivity|].
        intros E. inversion E. reflexivity.
Qed.

(** X16. With a key of at least one column, [comparator] is a consistent
    comparison on stored rows: it returns [-1], [0] or [1], swapping its
    arguments negates the result, and for rows that hold the key columns it
    returns [0] exactly when [getID] gives both rows the same key tuple. *)
Theorem comparator_consistent (st : State) (pk : list string) (a b : Z)
    (ra rb : Row) :
  PK st = Some pk -> pk <> [] ->
  getRow st a = Some ra -> getRow st b = Some rb ->
  exists c,
    comparator st a b = OK c /\ comparator st b a = OK (- c) /\
    -1 <= c <= 1 /\
    (complete pk ra = true -> complete pk rb = true ->
     (c = 0 <-> getID st a = getID st b)).
Proof.
  intros Hpk _ Ha Hb. unfold comparator, getID. rewrite Hpk, Ha, Hb.
  destruct (comparator_find_lex pk ra rb) as (c & Hc & _).
  destruct (comparator_find_sym ra rb pk c Hc) as [Hs Hr].
  exists c. split; [exact Hc|]. split; [exact Hs|]. split; [exact Hr|].
  intros Ca Cb. rewrite !fields_tuple.
  rewrite (comparator_find_zero ra rb pk c Ca Cb Hc).
  split; [intros ->; reflexivity|]. intros E. inversion E. reflexivity.
Qed.

(** ** The number of probes *)

Lemma halves_bound (min max p : Z) :
  0 < p -> min <= max -> max - min + 1 < 2 * p ->
  (min + max) / 2 - 1 - min + 1 < p /\ max - ((min + max) / 2 + 1) + 1 < p.
Proof.
  intros Hp Hle Hs.
  pose proof (Z.div_mod (min + max) 2 ltac:(lia)).
  pose proof (Z.mod_pos_bound (min + max) 2 ltac:(lia)).
  lia.
Qed.

Section Probes.
Variable getRow : Z -> option Row.
Variable key : string.
Variable v : value.

Lemma binSearch_probes (n : nat) : forall min max,
  max - min + 1 < 2 ^ Z.of_nat n ->
  binSearch_loop getRow key v n min max = binSearch getRow key v min max.
Proof.
  induction n as [|n IH]; intros min max Hs; rewrite binSearch_eq.
  - simpl in *. destruct (min <=? max) eqn:E; [fuel_step; lia|reflexivity].
  - rewrite Nat2Z.inj_succ, Z.pow_succ_r in Hs by lia.
    simpl. destruct (min <=? max) eqn:E; [|reflexivity]. fuel_step.
    destruct (halves_bound min max (2 ^ Z.of_nat n)
                ltac:(apply Z.pow_pos_nonneg; lia) E Hs) as [Hl Hr].
    cbv zeta.
    destruct (field (getRow ((min + max) / 2)) key) as [fld|e]; simpl;
      [|reflexivity].
    destruct (JS.gt fld v); [apply IH; lia|].
    destruct (JS.lt fld v); [apply IH; lia|reflexivity].
Qed.

Lemma binSearchMin_probes (n : nat) : forall min max,
  max - min + 1 < 2 ^ Z.of_nat n ->
  binSearchMin_loop getRow key v n min max = binSearchMin getRow key v min max.
Proof.
  induction n as [|n IH]; intros min max Hs; rewrite binSearchMin_eq.
  - simpl in *. destruct (min <=? max) eqn:E; [fuel_step; lia|reflexivity].
  - rewrite Nat2Z.inj_succ, Z.pow_succ_r in Hs by lia.
    simpl. destruct (min <=? max) eqn:E; [|reflexivity]. fuel_step.
    destruct (halves_bound min max (2 ^ Z.of_nat n)
                ltac:(apply Z.pow_pos_nonneg; lia) E Hs) as [Hl Hr].
    cbv zeta.
    destruct (field (getRow ((min + max) / 2)) key) as [fld|e]; simpl;
      [|reflexivity].
    destruct (JS.ge fld v); apply IH; lia.
Qed.

Lemma binSearchMax_probes (n : nat) : forall min max,
  max - min + 1 < 2 ^ Z.of_nat n ->
  binSearchMax_loop getRow key v n min max = binSearchMax getRow key v min max.
Proof.
  induction n as [|n IH]; intros min max Hs; rewrite binSearchMax_eq.
  - simpl in *. destruct (min <=? max) eqn:E; [fuel_step; lia|reflexivity].
  - rewrite Nat2Z.inj_succ, Z.pow_succ_r in Hs by lia.
    simpl. destruct (min <=? max) eqn:E; [|reflexivity]. fuel_step.
    destruct (halves_bound min max (2 ^ Z.of_nat n)
                ltac:(apply Z.pow_pos_nonneg; lia) E Hs) as [Hl Hr].
    cbv zeta.
    destruct (field (getRow ((min + max) / 2)) key) as [fld|e]; simpl;
      [|reflexivity].
    destruct (JS.gt fld v); apply IH; lia.
Qed.
End Probes.

(** X17. The three binary searches are logarithmic: on a range of fewer than
    [2 ^ n] positions each of their loops is over after at most [n]
    iterations, that is after reading at most [n] rows. *)
Theorem binary_searches_are_logarithmic (getRow : Z -> option Row)
    (key : string) (v : value) (n : nat) (min max : Z) :
  max - min + 1 < 2 ^ Z.of_nat n ->
  binSearch_loop getRow key v n min max = binSearch getRow key v min max /\
  binSearchMin_loop getRow key v n min max =
    binSearchMin getRow key v min max /\
  binSearchMax_loop getRow key v n min max =
    binSearchMax getRow key v min max.
Proof.
  intros H. split; [|split].
  - apply binSearch_probes. exact H.
  - apply binSearchMin_probes. exact H.
  - apply binSearchMax_probes. exact H.
Qed.

(** ** Searching a store that is not in order *)

Section Unordered.
Variable getRow : Z -> option Row.

Lemma binSearchMin_range (key : string) (v : value) : forall min max,
  min <= max + 1 ->
  (forall i, min <= i <= max -> exists r, getRow i = Some r) ->
  exists m, binSearchMin getRow key v min max = OK m /\ min <= m <= max + 1.
Proof.
  intros min max; pattern min, max; apply range_ind; clear min max.
  intros min max IH Hr D. rewrite binSearchMin_eq.
  destruct (min <=? max) eqn:E; fuel_step; [|exists min; split; [auto|lia]].
  pose proof (mid_bounds min max E) as Hmid. cbv zeta.
  destruct (D _ Hmid) as [r Hrow]. rewrite Hrow. simpl.
  destruct (JS.ge (lookup r key) v).
  - destruct (IH min ((min + max) / 2 - 1)) as (m & Hm & Hb);
      [unfold range_size; lia|lia|intros i Hi; apply D; lia|].
    exists m. split; [exact Hm|lia].
  - destruct (IH ((min + max) / 2 + 1) max) as (m & Hm & Hb);
      [unfold range_size; lia|lia|intros i Hi; apply D; lia|].
    exists m. split; [exact Hm|lia].
Qed.

Lemma binSearchMax_range (key : string) (v : value) : forall min max,
  min <= max + 1 ->
  (forall i, min <= i <= max -> exists r, getRow i = Some r) ->
  exists m, binSearchMax getRow key v min max = OK m /\ min <= m <= max + 1.
Proof.
  intros min max; pattern min, max; apply range_ind; clear min max.
  intros min max IH Hr D. rewrite binSearchMax_eq.
  destruct (min <=? max) eqn:E; fuel_step; [|exists min; split; [auto|lia]].
  pose proof (mid_bounds min max E) as Hmid. cbv zeta.
  destruct (D _ Hmid) as [r Hrow]. rewrite Hrow. simpl.
  destruct (JS.gt (lookup r key) v).
  - destruct (IH min ((min + max) / 2 - 1)) as (m & Hm & Hb);
      [unfold range_size; lia|lia|intros i Hi; apply D; lia|].
    exists m. split; [exact Hm|lia].
  - destruct (IH ((min + max) / 2 + 1) max) as (m & Hm & Hb);
      [unfold range_size; lia|lia|intros i Hi; apply D; lia|].
    exists m. split; [exact Hm|lia].
Qed.

Lemma binSearch_range (key : string) (v : value) : forall min max,
  min <= max + 1 ->
  (forall i, min <= i <= max -> exists r, getRow i = Some r) ->
  exists res,
    binSearch getRow key v min max = OK res /\
    min <= PX_index res <= max + 1 /\
    match dataRow res with
    | Some r =>
        PX_index res <= max /\ getRow (PX_index res) = Some r /\
        JS.lt (lookup r key) v = false /\ JS.gt (lookup r key) v = false
    | None => True
    end.
Proof.
  intros min max; pattern min, max; apply range_ind; clear min max.
  intros min max IH Hr D. rewrite binSearch_eq.
  destruct (min <=? max) eqn:E; fuel_step;
    [|eexists; split; [reflexivity|simpl; split; [lia|exact I]]].
  pose proof (mid_bounds min max E) as Hmid. cbv zeta.
  destruct (D _ Hmid) as [r Hrow]. rewrite Hrow. simpl.
  destruct (JS.gt (lookup r key) v) eqn:Eg.
  - destruct (IH min ((min + max) / 2 - 1)) as (res & Hm & Hb & Hd);
      [unfold range_size; lia|lia|intros i Hi; apply D; lia|].
    exists res. split; [exact Hm|]. split; [lia|].
    destruct (dataRow res); [|exact I].
    destruct Hd as (? & ? & ? & ?). repeat split; auto. lia.
  - destruct (JS.lt (lookup r key) v) eqn:El.
    + destruct (IH ((min + max) / 2 + 1) max) as (res & Hm & Hb & Hd);
        [unfold range_size; lia|lia|intros i Hi; apply D; lia|].
      exists res. split; [exact Hm|]. split; [lia|].
      destruct (dataRow res); [|exact I].
      destruct Hd as (? & ? & ? & ?). repeat split; auto.
    + eexists. split; [reflexivity|]. simpl. rewrite Hrow.
      repeat split; auto; lia.
Qed.

Lemma narrow_range (sarg : list value) (columns : list string) :
  forall i min max,
    min <= max + 1 ->
  (forall i, min <= i <= max -> exists r, getRow i = Some r) ->
    exists min' max',
      narrow getRow sarg columns i min max = OK (min', max') /\
      min <= min' /\ min' <= max' + 1 /\ max' <= max.
Proof.
  induction columns as [|k ks IH]; intros i min max Hr D; cbn [narrow].
  - exists min, max. repeat split; lia.
  - destruct (binSearchMin_range k (nth i sarg None) min max Hr D)
      as (m1 & H1 & B1).
    rewrite H1. cbn [rbind].
    destruct (binSearchMax_range k (nth i sarg None) m1 max ltac:(lia))
      as (m2 & H2 & B2); [intros j Hj; apply D; lia|].
    rewrite H2. cbn [rbind].
    destruct (IH (Datatypes.S i) m1 (m2 - 1) ltac:(lia))
      as (min' & max' & Hn & B3 & B4 & B5); [intros j Hj; apply D; lia|].
    exists min', max'. split; [exact Hn|]. lia.
Qed.
End Unordered.

(** X18. [find] trusts [presorted]: on any row store, in order or not, it
    reads rows directly, never raises once the key and the search values are
    resolved, and returns a position between 0 and the row count; a row it
    returns is the row stored at that position, and its last key column is
    neither less nor greater than the last search value. *)
Theorem find_presorted_trusts_the_caller (st : State) (sarg : Sarg)
    (options : Options) (pk : list string) (t : list value) :
  derivePK st sarg = OK pk -> presorted options = true ->
  normalize pk sarg = OK t ->
  exists res,
    find sarg options st = (resolved pk None st, OK res) /\
    0 <= PX_index res <= getRowCount st /\
    match dataRow res with
    | Some r =>
        getRow st (PX_index res) = Some r /\
        JS.lt (lookup r (nth (length pk - 1) pk "undefined"))
              (nth (length pk - 1) t None) = false /\
        JS.gt (lookup r (nth (length pk - 1) pk "undefined"))
              (nth (length pk - 1) t None) = false
    | None => True
    end.
Proof.
  intros Hpk Hpre Hn.
  rewrite (find_presorted st sarg options pk t Hpk Hpre Hn).
  unfold search, accessor, getRowCount. cbn [PX resolved setPX].
  set (g := getRow (resolved pk None st)).
  assert (D : forall i, 0 <= i <= Z.of_nat (length (data st)) - 1 ->
                        exists r, g i = Some r).
  { intros i Hi. unfold g, getRow. cbn. apply index_defined. lia. }
  destruct (narrow_range g t (firstn (length pk - 1) pk) 0 0
              (Z.of_nat (length (data st)) - 1) ltac:(lia) D)
    as (min & max & Hnar & B1 & B2 & B3).
  cbn [data resolved setPX setPK]. rewrite Hnar. cbn [rbind].
  destruct (binSearch_range g (nth (length pk - 1) pk "undefined")
              (nth (length pk - 1) t None) min max B2)
    as (res & Hres & Hb & Hd); [intros i Hi; apply D; lia|].
  exists res. split; [rewrite Hres; reflexivity|]. split; [lia|].
  destruct (dataRow res) as [r|]; [|exact I].
  destruct Hd as (_ & Hg & Hl & Hgt). auto.
Qed.

(** ** One narrowing step *)

(** X19. On a range whose rows ascend in a column, [binSearchMin] returns
    the first position whose value is not less than the target and
    [binSearchMax], started there, the first position whose value is
    greater: the positions between them, the latter excluded, are exactly
    those holding the target, however many there are. *)
Theorem narrowing_step_brackets_equal_values (getRow : Z -> option Row)
    (key : string) (t min max : Z) :
  min <= max + 1 ->
  defined_on getRow key min max -> ascending_on getRow key min max ->
  exists lo hi,
    binSearchMin getRow key (Some t) min max = OK lo /\
    binSearchMax getRow key (Some t) lo max = OK hi /\
    min <= lo /\ lo <= hi /\ hi <= max + 1 /\
    forall i r z, min <= i <= max -> getRow i = Some r ->
                  lookup r key = Some z ->
      (i < lo <-> z < t) /\ (lo <= i < hi <-> z = t) /\ (hi <= i <-> t < z).
Proof.
  intros Hr D As.
  destruct (binSearchMin_spec getRow key t min max Hr D As)
    as (lo & Hlo & Blo & Hlt & Hge).
  assert (D' : defined_on getRow key lo max)
    by (eapply defined_on_sub; [exact D|lia|lia]).
  assert (As' : ascending_on getRow key lo max)
    by (eapply ascending_on_sub; [exact As|lia|lia]).
  destruct (binSearchMax_spec getRow key t lo max ltac:(lia) D' As')
    as (hi & Hhi & Bhi & Hle & Hgt).
  exists lo, hi. split; [exact Hlo|]. split; [exact Hhi|].
  split; [lia|]. split; [lia|]. split; [lia|].
  intros i r z Hi Hrow Hz.
  destruct (Z_lt_ge_dec i lo) as [L|G].
  - assert (z < t) by (eapply Hlt; eauto; lia). lia.
  - assert (t <= z) by (eapply Hge; eauto; lia).
    destruct (Z_lt_ge_dec i hi) as [L'|G'].
    + assert (z <= t) by (eapply Hle; eauto; lia). lia.
    + assert (t < z) by (eapply Hgt; eauto; lia). lia.
Qed.

(** ** Instances of the further properties *)

Lemma resolved_key_is_cached_witness :
  PK (run_op (OpFindRow (SObj Examples.r1)) no_options Examples.unkeyed) =
    Some ["id"] /\
  (["id"] <> [] ->
   forall sarg',
     derivePK (run_op (OpFindRow (SObj Examples.r1)) no_options
                 Examples.unkeyed) sarg' = OK ["id"]).
Proof.
  apply (resolved_key_is_cached (OpFindRow (SObj Examples.r1)) no_options
           Examples.unkeyed ["id"]).
  reflexivity.
Defined.


Lemma find_refuses_primitive_argument_witness :
  snd (find (SVal (Some 1)) no_options Examples.byDept) =
    Err (if no_key Examples.byDept then CannotDerivePK else ExpectedObject) /\
  (no_key Examples.byDept = true ->
   fst (find (SVal (Some 1)) no_options Examples.byDept) = Examples.byDept) /\
  data (fst (find (SVal (Some 1)) no_options Examples.byDept)) =
    data Examples.byDept /\
  published (fst (find (SVal (Some 1)) no_options Examples.byDept)) =
    published Examples.byDept.
Proof.
  apply (find_refuses_primitive_argument Examples.byDept (Some 1) no_options).
  intros c H. discriminate H.
Defined.

Lemma find_primitive_is_one_column_object_witness :
  find (SVal (Some 2)) no_options Scenario.byId =
  find (SObj [("id", 2)]) no_options Scenario.byId.
Proof.
  apply (find_primitive_is_one_column_object Scenario.byId "id" 2 no_options).
  reflexivity.
Defined.

Lemma findRow_finds_exactly_witness :
  exists st1 res,
    findRow (Some (SVal (Some 2), no_options)) Examples.byId_indexed =
      (st1, OK res) /\
    data st1 = data Examples.byId_indexed /\
    published st1 = published Examples.byId_indexed /\
    match res with
    | Some r => In r (data Examples.byId_indexed) /\ tuple ["id"] r = map Some [2]
    | None => forall r, In r (data Examples.byId_indexed) ->
                        tuple ["id"] r <> map Some [2]
    end.
Proof.
  apply (findRow_finds_exactly Examples.byId_indexed (SVal (Some 2))
           no_options ["id"] [2]).
  - reflexivity.
  - discriminate.
  - repeat constructor.
  - exact byId_index_valid.
  - reflexivity.
  - reflexivity.
Defined.

Lemma findRowIndex_of_stored_key_witness :
  exists st1 y r',
    findRowIndex (SVal (Some 2)) no_options Examples.byId_indexed =
      (st1, OK (Some y)) /\
    getRow Examples.byId_indexed y = Some r' /\
    tuple ["id"] r' = map Some [2].
Proof.
  apply (findRowIndex_of_stored_key Examples.byId_indexed (SVal (Some 2))
           no_options ["id"] [2] [("id", 2); ("name", 98)]).
  - reflexivity.
  - discriminate.
  - repeat constructor.
  - exact byId_index_valid.
  - reflexivity.
  - reflexivity.
  - simpl. auto.
  - reflexivity.
Defined.

Lemma findRowIndex_presorted_witness :
  exists st1 p,
    findRowIndex (SVal (Some 4)) Examples.presorted_on Examples.three =
      (st1, OK (Some p)) /\
    0 <= p <= getRowCount Examples.three /\
    ((exists r, getRow Examples.three p = Some r /\
                tuple ["id"] r = map Some [4]) \/
     (forall i r, getRow Examples.three i = Some r ->
        (i < p -> lex_lt (tuple ["id"] r) (map Some [4]) = true) /\
        (p <= i -> lex_lt (map Some [4]) (tuple ["id"] r) = true))).
Proof.
  apply (findRowIndex_presorted Examples.three (SVal (Some 4))
           Examples.presorted_on ["id"] [4]).
  - reflexivity.
  - discriminate.
  - repeat constructor.
  - repeat constructor.
  - reflexivity.
  - reflexivity.
Defined.

Lemma find_rebuild_restores_order_witness :
  exists px,
    PX (fst (find (SVal (Some 2)) {| presorted := false; reindex := true |}
               (setPX (Some [2; 0; 0]) Scenario.byId))) = Some px /\
    rebuildPX (setPK (Some ["id"]) (setPX (Some [2; 0; 0]) Scenario.byId)) =
      OK px /\
    valid_index (data (setPX (Some [2; 0; 0]) Scenario.byId)) ["id"] px.
Proof.
  apply (find_rebuild_restores_order (setPX (Some [2; 0; 0]) Scenario.byId)
           (SVal (Some 2)) {| presorted := false; reindex := true |} ["id"]).
  - reflexivity.
  - repeat constructor.
  - reflexivity.
  - left. reflexivity.
Defined.

Lemma insertRow_keeps_index_valid_witness :
  exists px,
    PX (fst (insertRow [("id", 0); ("name", 96)] no_options
               Examples.byId_indexed)) = Some px /\
    valid_index (data Examples.byId_indexed ++ [[("id", 0); ("name", 96)]])
      ["id"] px /\
    In (getRowCount Examples.byId_indexed) px /\
    length px = S (length (data Examples.byId_indexed)).
Proof.
  apply (insertRow_keeps_index_valid Examples.byId_indexed _
           [("id", 0); ("name", 96)] no_options ["id"]).
  - reflexivity.
  - discriminate.
  - repeat constructor.
  - exact byId_index_valid.
  - reflexivity.
  - reflexivity.
Defined.

Lemma insertRow_then_findRowIndex_witness :
  exists st2,
    findRowIndex (SVal (Some 0)) no_options
      (fst (insertRow [("id", 0); ("name", 96)] no_options
              Examples.byId_indexed)) =
    (st2, OK (Some (getRowCount Examples.byId_indexed))).
Proof.
  apply (insertRow_then_findRowIndex Examples.byId_indexed _
           [("id", 0); ("name", 96)] no_options no_options
           (SVal (Some 0)) ["id"]).
  - reflexivity.
  - discriminate.
  - repeat constructor.
  - exact byId_index_valid.
  - intros r' [<-|[<-|[<-|[]]]]; discriminate.
  - reflexivity.
  - reflexivity.
  - reflexivity.
Defined.




Lemma insertRow_into_empty_store_witness :
  snd (find (SObj Examples.r1) no_options (Scenario.fresh (Some ["id"]) [])) =
    OK {| PX_index := 0; dataRow := None |} /\
  exists st1,
    insertRow Examples.r1 no_options (Scenario.fresh (Some ["id"]) []) =
      (st1, OK true) /\
    data st1 = [Examples.r1] /\ PK st1 = Some ["id"] /\
    PX st1 = if presorted no_options then None else Some [0].
Proof.
  apply (insertRow_into_empty_store (Scenario.fresh (Some ["id"]) [])
           Examples.r1 no_options ["id"]).
  - reflexivity.
  - exact I.
  - reflexivity.
  - reflexivity.
  - reflexivity.
Defined.

Lemma comparator_consistent_witness :
  exists c,
    comparator Scenario.byId 0 1 = OK c /\
    comparator Scenario.byId 1 0 = OK (- c) /\
    -1 <= c <= 1 /\
    (complete ["id"] [("id", 3); ("name", 99)] = true ->
     complete ["id"] [("id", 1); ("name", 97)] = true ->
     (c = 0 <-> getID Scenario.byId 0 = getID Scenario.byId 1)).
Proof.
  apply (comparator_consistent Scenario.byId ["id"] 0 1
           [("id", 3); ("name", 99)] [("id", 1); ("name", 97)]);
    [reflexivity|discriminate|reflexivity|reflexivity].
Defined.

Lemma binary_searches_are_logarithmic_witness :
  binSearch_loop (JS.index Examples.staff) "dept" (Some 2) 3 0 5 =
    binSearch (JS.index Examples.staff) "dept" (Some 2) 0 5 /\
  binSearchMin_loop (JS.index Examples.staff) "dept" (Some 2) 3 0 5 =
    binSearchMin (JS.index Examples.staff) "dept" (Some 2) 0 5 /\
  binSearchMax_loop (JS.index Examples.staff) "dept" (Some 2) 3 0 5 =
    binSearchMax (JS.index Examples.staff) "dept" (Some 2) 0 5.
Proof.
  apply (binary_searches_are_logarithmic (JS.index Examples.staff) "dept"
           (Some 2) 3 0 5).
  reflexivity.
Defined.

Lemma find_presorted_trusts_the_caller_witness :
  exists res,
    find (SVal (Some 1)) Examples.presorted_on Scenario.byId =
      (resolved ["id"] None Scenario.byId, OK res) /\
    0 <= PX_index res <= getRowCount Scenario.byId /\
    match dataRow res with
    | Some r =>
        getRow Scenario.byId (PX_index res) = Some r /\
        JS.lt (lookup r (nth (length ["id"] - 1) ["id"] "undefined"))
              (nth (length ["id"] - 1) [Some 1] None) = false /\
        JS.gt (lookup r (nth (length ["id"] - 1) ["id"] "undefined"))
              (nth (length ["id"] - 1) [Some 1] None) = false
    | None => True
    end.
Proof.
  apply (find_presorted_trusts_the_caller Scenario.byId (SVal (Some 1))
           Examples.presorted_on ["id"] [Some 1]); reflexivity.
Defined.

Lemma staff_in_order :
  complete_on (JS.index Examples.staff) ["dept"; "id"] 0 5 /\
  sorted_on (JS.index Examples.staff) ["dept"; "id"] 0 5.
Proof.
  apply (ordered_of_list (JS.index Examples.staff) ["dept"; "id"]
           Examples.staff).
  - reflexivity.
  - repeat constructor.
  - repeat constructor.
Qed.

Lemma narrowing_step_brackets_equal_values_witness :
  exists lo hi,
    binSearchMin (JS.index Examples.staff) "dept" (Some 2) 0 5 = OK lo /\
    binSearchMax (JS.index Examples.staff) "dept" (Some 2) lo 5 = OK hi /\
    0 <= lo /\ lo <= hi /\ hi <= 5 + 1 /\
    forall i r z, 0 <= i <= 5 -> JS.index Examples.staff i = Some r ->
                  lookup r "dept" = Some z ->
      (i < lo <-> z < 2) /\ (lo <= i < hi <-> z = 2) /\ (hi <= i <-> 2 < z).
Proof.
  apply (narrowing_step_brackets_equal_values (JS.index Examples.staff)
           "dept" 2 0 5).
  - lia.
  - eapply complete_on_defined. exact (proj1 staff_in_order).
  - eapply sorted_on_ascending. exact (proj2 staff_in_order).
Defined.

(** ** Runs of searches and insertions *)





